(** * uvw: the duplex stream handle (src/uvw/stream.hpp)

    A shallow embedding of [StreamHandle] and of the transient requests it
    creates, over an explicit world: the byte buffers on the C++ heap, the
    events delivered to the stream's subscribers, and the requests that the
    I/O engine still has in flight. *)

From Stdlib Require Import ZArith Lia Bool List.
From Stdlib Require Init.Byte.
From stdpp Require Import base option list gmap.
Import ListNotations.

Local Open Scope Z_scope.

(** ** Machine integers

    [ssize_t] is signed, [std::size_t] is unsigned; a value is a [Z] and the
    conversion writes its wrap-around out. *)

Definition ssize_t_range (z : Z) : Prop := - 2 ^ 63 <= z < 2 ^ 63.

(** [static_cast<std::size_t>(z)] *)
Definition to_size_t (z : Z) : Z := z mod 2 ^ 64.

(** ** The heap of [char[]] buffers

    A buffer is named by the block [new char[]] returned for it; blocks are
    never reused, so the log of [delete[]] calls counts how often each
    buffer was freed.  [ub] records a use of a dead block (a read after
    free, or a second [delete[]]). *)

Definition byte := Init.Byte.byte.

Definition block := positive.

(** [char *]: [None] is [nullptr]. *)
Definition ptr := option block.

Record Memory := mkMemory {
  heap : gmap block (list byte);
  frees : list block;
  ub : bool
}.

Definition is_live (b : block) (m : Memory) : bool :=
  bool_decide (is_Some (heap m !! b)).

(** [delete[] p] *)
Definition delete_array (p : ptr) (m : Memory) : Memory :=
  match p with
  | None => m
  | Some b =>
      {| heap := delete b (heap m);
         frees := frees m ++ [b];
         ub := ub m || negb (is_live b m) |}
  end.

(** Reading [n] bytes at [p], as a native write does. *)
Definition load (p : ptr) (n : Z) (m : Memory) : list byte * Memory :=
  match p with
  | None => ([], m)
  | Some b =>
      match heap m !! b with
      | Some bytes => (take (Z.to_nat n) bytes, m)
      | None => ([], {| heap := heap m; frees := frees m; ub := true |})
      end
  end.

(** ** [std::unique_ptr<char[]>] *)

Definition unique_ptr := ptr.

(** [std::move(u)]: the value moved out, and what is left in [u]. *)
Definition unique_ptr_move (u : unique_ptr) : unique_ptr * unique_ptr := (u, None).

(** [u.release()] *)
Definition unique_ptr_release (u : unique_ptr) : ptr * unique_ptr := (u, None).

(** [u.get()] *)
Definition unique_ptr_get (u : unique_ptr) : ptr := u.

(** [~unique_ptr()] *)
Definition unique_ptr_dtor (u : unique_ptr) (m : Memory) : Memory := delete_array u m.

(** ** Events (stream.hpp 19-71)

    [ErrorEvent] is declared in emitter.hpp; its payload is the native error
    code (the spec's data model: "Error | native error code"). *)

Inductive Event :=
| ConnectEvent
| EndEvent
| ListenEvent
| ShutdownEvent
| WriteEvent
| DataEvent (data : unique_ptr) (length : Z)
| ErrorEvent (ec : Z).

Inductive EventType := TConnect | TEnd | TListen | TShutdown | TWrite | TData | TError.

Definition type_of (e : Event) : EventType :=
  match e with
  | ConnectEvent => TConnect
  | EndEvent => TEnd
  | ListenEvent => TListen
  | ShutdownEvent => TShutdown
  | WriteEvent => TWrite
  | DataEvent _ _ => TData
  | ErrorEvent _ => TError
  end.

#[global] Instance EventType_eq_dec : EqDecision EventType.
Proof. solve_decision. Defined.

#[global] Instance Event_eq_dec : EqDecision Event.
Proof. solve_decision. Defined.

(** The buffer an event owns. *)
Definition payload (e : Event) : unique_ptr :=
  match e with
  | DataEvent data _ => data
  | _ => None
  end.

(** [~E()]: only [DataEvent] has a member with a destructor. *)
Definition Event_dtor (e : Event) (m : Memory) : Memory := unique_ptr_dtor (payload e) m.

Definition is_DataEvent (e : Event) : bool :=
  match e with DataEvent _ _ => true | _ => false end.

Definition is_ErrorEvent (e : Event) : bool :=
  match e with ErrorEvent _ => true | _ => false end.

(** ** [uv_buf_t], libuv's buffer descriptor *)

Record uv_buf_t := mk_uv_buf { base : ptr; len : Z }.

Definition uv_buf_init (b : ptr) (l : Z) : uv_buf_t := {| base := b; len := l |}.

(** ** Transient requests (stream.hpp 74-120)

    [WriteReq] owns its descriptor array through a
    [std::unique_ptr<uv_buf_t[], Deleter>]: the array itself is the list
    [bufs], and [Deleter] is one of the two lambdas the [write] overloads
    pass. *)

Inductive Deleter :=
| delete_base_and_bufs   (* [](uv_buf_t *bufs) { delete[] bufs->base; delete[] bufs; } *)
| delete_bufs.           (* [](uv_buf_t *bufs) { delete[] bufs; } *)

Definition run_deleter (d : Deleter) (bufs : list uv_buf_t) (m : Memory) : Memory :=
  match d with
  | delete_base_and_bufs =>
      match bufs with
      | b :: _ => delete_array (base b) m
      | [] => m
      end
  | delete_bufs => m
  end.

(** The once-listeners registered on a request, by event type.  The only
    listener stream.hpp registers is the lambda
    [[ptr = shared_from_this()](const auto &event, Req &) { ptr->publish(event); }],
    so a listener is represented by the type it was registered for. *)
Definition Listeners := list EventType.

Record WriteReq := mkWriteReq {
  wr_listeners : Listeners;
  bufs : list uv_buf_t;
  bufs_deleter : Deleter;
  nbufs : Z
}.

Record ShutdownReq := mkShutdownReq {
  sr_listeners : Listeners
}.

(** [uv_stream_t *] of another handle, as [write2] sends it. *)
Definition uv_stream := positive.

(** ** The world *)

Record World := mkWorld {
  mem : Memory;
  published : list Event;          (* delivered to the stream's subscribers, oldest first *)
  reading : bool;                  (* a read registration is active *)
  listening : bool;
  write_queue : list (WriteReq * option uv_stream);   (* in flight, oldest first *)
  shutdown_queue : list ShutdownReq;
  wire : list byte                 (* what the peer has received, oldest first *)
}.

Definition set_mem (f : Memory -> Memory) (w : World) : World :=
  mkWorld (f (mem w)) (published w) (reading w) (listening w)
          (write_queue w) (shutdown_queue w) (wire w).

Definition set_published (f : list Event -> list Event) (w : World) : World :=
  mkWorld (mem w) (f (published w)) (reading w) (listening w)
          (write_queue w) (shutdown_queue w) (wire w).

Definition set_reading (r : bool) (w : World) : World :=
  mkWorld (mem w) (published w) r (listening w)
          (write_queue w) (shutdown_queue w) (wire w).


Definition set_write_queue (f : list (WriteReq * option uv_stream) ->
                               list (WriteReq * option uv_stream)) (w : World) : World :=
  mkWorld (mem w) (published w) (reading w) (listening w)
          (f (write_queue w)) (shutdown_queue w) (wire w).

Definition set_shutdown_queue (f : list ShutdownReq -> list ShutdownReq) (w : World) : World :=
  mkWorld (mem w) (published w) (reading w) (listening w)
          (write_queue w) (f (shutdown_queue w)) (wire w).

Definition set_wire (f : list byte -> list byte) (w : World) : World :=
  mkWorld (mem w) (published w) (reading w) (listening w)
          (write_queue w) (shutdown_queue w) (f (wire w)).

(** ** The emitter (emitter.hpp, not under src/) *)

(** Handing a buffer to somebody: a dead one is a use after free. *)
Definition touch (p : ptr) (m : Memory) : Memory :=
  match p with
  | None => m
  | Some b => {| heap := heap m; frees := frees m; ub := ub m || negb (is_live b m) |}
  end.

(** Modelled from the spec: [Emitter::publish] on the stream.
    "[publish(event)] delivers a typed event synchronously to all current
    subscribers of that event's type on the publishing object."  The
    stream's subscribers are the application: what they are handed is logged
    in [published], and the event stays the owner of its payload. *)
Definition publish (e : Event) (w : World) : World :=
  set_published (fun es => es ++ [e]) (set_mem (touch (payload e)) w).

(** Modelled from the spec: [Emitter::once], "[subscribe(once|persistent,
    handler)] registers a handler for a given event type". *)
Definition once (t : EventType) (ls : Listeners) : Listeners := ls ++ [t].

(** Modelled from the spec: [Emitter::publish] on a request.  Every
    once-listener of the event's type runs, which publishes the event on the
    stream, and is dropped. *)
Definition Request_publish (e : Event) (ls : Listeners) (w : World) : Listeners * World :=
  (filter (fun t => t ≠ type_of e) ls,
   Nat.iter (length (filter (fun t => t = type_of e) ls)) (publish e) w).

(** ** The engine boundary (handle.hpp, request.hpp and libuv, not under src/) *)

(** Modelled from the spec: the test for a failed native call.  "Native call
    results are a signed integer where negative means error-with-code and
    non-negative means success/byte-count." *)
Definition native_failed (err : Z) : bool := err <? 0.

(** Modelled from the spec: [Handle::invoke(f, args...)], with [f] the
    native call.  "Every fallible entry point that fails at the native call
    boundary publishes an Error event carrying the native error code." *)
Definition Handle_invoke (f : World -> Z * World) (w : World) : World :=
  let '(err, w) := f w in
  if native_failed err then publish (ErrorEvent err) w else w.

(** Modelled from the spec: [Request::invoke(f, args...)].  The result says
    whether the request was handed to the engine, which then keeps it alive
    until its completion ("kept alive solely by the completion-callback
    registration"); a request whose native call failed publishes the Error
    event itself and dies with the operation that created it. *)
Definition Request_invoke (f : World -> Z * World) (ls : Listeners) (w : World)
  : bool * Listeners * World :=
  let '(err, w) := f w in
  if native_failed err
  then let '(ls, w) := Request_publish (ErrorEvent err) ls w in (false, ls, w)
  else (true, ls, w).

(** Modelled from the spec: [Request::defaultCallback<E>(req, status)], the
    completion callback of a request: "the callback resolves the native
    outcome into a typed event and publishes it", as [listenCallback] does
    for its status. *)
Definition defaultCallback (e : Event) (status : Z) (ls : Listeners) (w : World)
  : Listeners * World :=
  if status =? 0 then Request_publish e ls w
  else Request_publish (ErrorEvent status) ls w.

(** [~WriteReq()]: the descriptor array's deleter runs. *)
Definition WriteReq_dtor (req : WriteReq) (w : World) : World :=
  set_mem (run_deleter (bufs_deleter req) (bufs req)) w.

(** The native primitives.  What a primitive returns is the environment's
    choice, the first argument; the definitions fix what the engine does
    with the call. *)

(** Modelled from the spec: [uv_write].  An accepted request joins the
    stream's queue: "once issued they run to completion or failure". *)
Definition uv_write (r : Z) (req : WriteReq) (w : World) : Z * World :=
  (r, if native_failed r then w else set_write_queue (fun q => q ++ [(req, None)]) w).

(** Modelled from the spec: [uv_write2], a write "with an attached handle". *)
Definition uv_write2 (r : Z) (req : WriteReq) (send : uv_stream) (w : World) : Z * World :=
  (r, if native_failed r then w else set_write_queue (fun q => q ++ [(req, Some send)]) w).

(** Modelled from the spec: [uv_shutdown]. *)
Definition uv_shutdown (r : Z) (req : ShutdownReq) (w : World) : Z * World :=
  (r, if native_failed r then w else set_shutdown_queue (fun q => q ++ [req]) w).



(** Modelled from the spec: [uv_read_start]. *)
Definition uv_read_start (r : Z) (w : World) : Z * World :=
  (r, if native_failed r then w else set_reading true w).

(** Modelled from the spec: [uv_read_stop].  "Idempotent: calling on an
    already-stopped stream is a no-op success", and stream.hpp 235: "This
    function is idempotent and may be safely called on a stopped stream".
    On a stream that is not reading it does nothing and returns 0; on a
    reading stream the registration is cancelled and the result is the
    environment's. *)
Definition uv_read_stop (r : Z) (w : World) : Z * World :=
  if reading w then (r, set_reading false w) else (0, w).

(** The bytes the descriptors [bs] describe. *)
Fixpoint gather (bs : list uv_buf_t) (m : Memory) : list byte * Memory :=
  match bs with
  | [] => ([], m)
  | b :: bs' =>
      let '(x, m1) := load (base b) (len b) m in
      let '(xs, m2) := gather bs' m1 in
      (x ++ xs, m2)
  end.

(** Modelled from the spec: [uv_try_write], "an immediate, non-queued
    write" that "returns the number of bytes actually written (may be less
    than requested, or zero)": on success the first [bw] bytes of the
    buffers went out. *)
Definition uv_try_write (bw : Z) (bs : list uv_buf_t) (n : Z) (w : World) : Z * World :=
  if native_failed bw then (bw, w)
  else
    let '(bytes, m) := gather (take (Z.to_nat n) bs) (mem w) in
    (bw, set_wire (fun s => s ++ take (Z.to_nat bw) bytes) (set_mem (fun _ => m) w)).

(** [details::ShutdownReq::shutdown] (stream.hpp 90-92) *)
Definition ShutdownReq_shutdown (r : Z) (req : ShutdownReq) (w : World)
  : bool * ShutdownReq * World :=
  let '(leaked, ls, w) := Request_invoke (uv_shutdown r req) (sr_listeners req) w in
  (leaked, mkShutdownReq ls, w).

(** [details::WriteReq::write], one argument (stream.hpp 106-108) *)
Definition WriteReq_write (r : Z) (req : WriteReq) (w : World) : bool * WriteReq * World :=
  let '(leaked, ls, w) := Request_invoke (uv_write r req) (wr_listeners req) w in
  (leaked, mkWriteReq ls (bufs req) (bufs_deleter req) (nbufs req), w).

(** [details::WriteReq::write], with a handle to send (stream.hpp 110-112) *)
Definition WriteReq_write2 (r : Z) (req : WriteReq) (send : uv_stream) (w : World)
  : bool * WriteReq * World :=
  let '(leaked, ls, w) := Request_invoke (uv_write2 r req send) (wr_listeners req) w in
  (leaked, mkWriteReq ls (bufs req) (bufs_deleter req) (nbufs req), w).

Definition WriteReq_once (t : EventType) (req : WriteReq) : WriteReq :=
  mkWriteReq (once t (wr_listeners req)) (bufs req) (bufs_deleter req) (nbufs req).

Definition ShutdownReq_once (t : EventType) (req : ShutdownReq) : ShutdownReq :=
  mkShutdownReq (once t (sr_listeners req)).

(** ** StreamHandle (stream.hpp 130-426) *)

Section StreamHandle.

(** [UV_EOF] comes from uv.h. *)
Variable UV_EOF : Z.

(** [StreamHandle::readCallback] (stream.hpp 134-149).  "data will be
    destroyed no matter of what the value of nread is" (line 136): the local
    [data] dies at the end of the scope, and the [DataEvent] temporary, which
    holds the buffer after the move, at the end of the statement that
    publishes it. *)
Definition readCallback (nread : Z) (buf : uv_buf_t) (w : World) : World :=
  let data : unique_ptr := base buf in
  if nread =? UV_EOF then
    let w := publish EndEvent w in
    set_mem (unique_ptr_dtor data) w
  else if 0 <? nread then
    let '(moved, data) := unique_ptr_move data in
    let event := DataEvent moved (to_size_t nread) in
    let w := publish event w in
    let w := set_mem (Event_dtor event) w in
    set_mem (unique_ptr_dtor data) w
  else
    let w := publish (ErrorEvent nread) w in
    set_mem (unique_ptr_dtor data) w.

(** [StreamHandle::listenCallback] (stream.hpp 151-155) *)
Definition listenCallback (status : Z) (w : World) : World :=
  if negb (status =? 0) then publish (ErrorEvent status) w
  else publish ListenEvent w.

(** [StreamHandle::shutdown] (stream.hpp 173-182) *)
Definition shutdown (r : Z) (w : World) : World :=
  let shutdown := mkShutdownReq [] in
  let shutdown := ShutdownReq_once TError shutdown in
  let shutdown := ShutdownReq_once TShutdown shutdown in
  let '(_, _, w) := ShutdownReq_shutdown r shutdown w in
  w.

Definition DEFAULT_BACKLOG : Z := 128.



(** [StreamHandle::read] (stream.hpp 228-230) *)
Definition read (r : Z) (w : World) : World :=
  Handle_invoke (uv_read_start r) w.

(** [StreamHandle::stop] (stream.hpp 237-239) *)
Definition stop (r : Z) (w : World) : World :=
  Handle_invoke (uv_read_stop r) w.

(** [StreamHandle::write(std::unique_ptr<char[]>, std::size_t)] (stream.hpp 253-267) *)
Definition write (data : unique_ptr) (len : Z) (r : Z) (w : World) : World :=
  let '(raw, data) := unique_ptr_release data in
  let write := mkWriteReq [] [uv_buf_init raw len] delete_base_and_bufs 1 in
  let write := WriteReq_once TError write in
  let write := WriteReq_once TWrite write in
  let '(leaked, write, w) := WriteReq_write r write w in
  let w := if leaked then w else WriteReq_dtor write w in
  set_mem (unique_ptr_dtor data) w.

(** [StreamHandle::write(char *, std::size_t)] (stream.hpp 281-295) *)
Definition write_raw (data : ptr) (len : Z) (r : Z) (w : World) : World :=
  let write := mkWriteReq [] [uv_buf_init data len] delete_bufs 1 in
  let write := WriteReq_once TError write in
  let write := WriteReq_once TWrite write in
  let '(leaked, write, w) := WriteReq_write r write w in
  if leaked then w else WriteReq_dtor write w.

(** [StreamHandle::write(S &, std::unique_ptr<char[]>, std::size_t)] (stream.hpp 316-331) *)
Definition write2 (send : uv_stream) (data : unique_ptr) (len : Z) (r : Z) (w : World)
  : World :=
  let '(raw, data) := unique_ptr_release data in
  let write := mkWriteReq [] [uv_buf_init raw len] delete_base_and_bufs 1 in
  let write := WriteReq_once TError write in
  let write := WriteReq_once TWrite write in
  let '(leaked, write, w) := WriteReq_write2 r write send w in
  let w := if leaked then w else WriteReq_dtor write w in
  set_mem (unique_ptr_dtor data) w.

(** [StreamHandle::write(S &, char *, std::size_t)] (stream.hpp 352-367) *)
Definition write2_raw (send : uv_stream) (data : ptr) (len : Z) (r : Z) (w : World)
  : World :=
  let write := mkWriteReq [] [uv_buf_init data len] delete_bufs 1 in
  let write := WriteReq_once TError write in
  let write := WriteReq_once TWrite write in
  let '(leaked, write, w) := WriteReq_write2 r write send w in
  if leaked then w else WriteReq_dtor write w.

(** [StreamHandle::tryWrite] (stream.hpp 380-390) *)
Definition tryWrite (data : unique_ptr) (len : Z) (r : Z) (w : World) : Z * World :=
  let bufs := [uv_buf_init (unique_ptr_get data) len] in
  let '(bw, w) := uv_try_write r bufs 1 w in
  let '(bw, w) := if bw <? 0 then (0, publish (ErrorEvent bw) w) else (bw, w) in
  (bw, set_mem (unique_ptr_dtor data) w).

End StreamHandle.

(** ** The engine's callbacks (the loop and libuv, not under src/) *)

(** The bytes of a request go out to the peer. *)
Definition transmit (req : WriteReq) (w : World) : World :=
  let '(bytes, m) := gather (take (Z.to_nat (nbufs req)) (bufs req)) (mem w) in
  set_wire (fun s => s ++ bytes) (set_mem (fun _ => m) w).

(** Modelled from the spec: the completion of a write.  "Writes issued on
    the same stream complete, and are observed by the peer, in issuance
    order": the engine serves the oldest request of [write_queue], sends its
    bytes when the write succeeds and runs the completion callback that
    [WriteReq::write] registered; then the request is destroyed, "a request
    never outlives its completion".  With nothing in flight there is nothing
    to complete. *)
Definition complete_write (status : Z) (w : World) : World :=
  match write_queue w with
  | [] => w
  | (req, _) :: rest =>
      let w := set_write_queue (fun _ => rest) w in
      let w := if status =? 0 then transmit req w else w in
      let '(ls, w) := defaultCallback WriteEvent status (wr_listeners req) w in
      WriteReq_dtor (mkWriteReq ls (bufs req) (bufs_deleter req) (nbufs req)) w
  end.

(** Modelled from the spec: the completion of a shutdown, through the
    callback that [ShutdownReq::shutdown] registered. *)
Definition complete_shutdown (status : Z) (w : World) : World :=
  match shutdown_queue w with
  | [] => w
  | req :: rest =>
      let w := set_shutdown_queue (fun _ => rest) w in
      snd (defaultCallback ShutdownEvent status (sr_listeners req) w)
  end.

(** The block [new char[]] returns: one that was never handed out. *)
Definition fresh_block (m : Memory) : block :=
  fresh (dom (heap m) ∪ list_to_set (frees m) : gset block).

(** Modelled from the spec: [Handle::allocCallback] (handle.hpp is not under
    src/).  "[allocate(suggested_size) -> buffer] supplies a buffer for an
    incoming read chunk": a fresh [char[suggested]]. *)
Definition allocCallback (suggested : Z) (m : Memory) : uv_buf_t * Memory :=
  let b := fresh_block m in
  (uv_buf_init (Some b) suggested,
   {| heap := <[b := replicate (Z.to_nat suggested) Init.Byte.x00]> (heap m);
      frees := frees m;
      ub := ub m |}).

(** The engine stores what it received into the buffer it was given. *)
Definition fill (buf : uv_buf_t) (input : list byte) (m : Memory) : Memory :=
  match base buf with
  | None => m
  | Some b =>
      {| heap := alter (fun old => take (length old) (input ++ drop (length input) old)) b (heap m);
         frees := frees m;
         ub := ub m |}
  end.

(** Modelled from the spec: one read chunk.  "For every chunk delivered by
    the engine": the engine asks the allocator for a buffer, fills it and
    reports [nread] to the read callback. *)
Definition read_chunk (UV_EOF : Z) (suggested : Z) (input : list byte) (nread : Z)
  (w : World) : World :=
  let '(buf, m) := allocCallback suggested (mem w) in
  let w := set_mem (fun _ => fill buf input m) w in
  readCallback UV_EOF nread buf w.

(** * Vocabulary of the properties *)

(** How often block [b] was deleted. *)
Definition free_count (b : block) (m : Memory) : nat :=
  length (filter (fun x => x = b) (frees m)).

(** ** Shutdown requests in flight *)

(** The engine reports the completions [ss], oldest request first. *)
Definition run_shutdowns (ss : list Z) (w : World) : World :=
  foldl (fun w s => complete_shutdown s w) w ss.

(** The request [shutdown] hands to the engine. *)
Definition shutdown_req : ShutdownReq := mkShutdownReq [TError; TShutdown].

Definition shutdown_event (status : Z) : Event :=
  if status =? 0 then ShutdownEvent else ErrorEvent status.

(** The world [w] with another log. *)
Definition with_published (p : list Event) (w : World) : World :=
  set_published (fun _ => p) w.

(** ** Calls of [write]

    A call of one of the four [write] overloads on the buffer [c_block],
    with the native result [c_native] the engine answers it with. *)

Record call := mkCall {
  c_owned : bool;                  (* the overload takes a [std::unique_ptr<char[]>] *)
  c_send : option uv_stream;       (* the overload sends a handle along *)
  c_block : block;
  c_len : Z;
  c_native : Z
}.

Definition issue (c : call) (w : World) : World :=
  match c_owned c, c_send c with
  | true, None => write (Some (c_block c)) (c_len c) (c_native c) w
  | false, None => write_raw (Some (c_block c)) (c_len c) (c_native c) w
  | true, Some s => write2 s (Some (c_block c)) (c_len c) (c_native c) w
  | false, Some s => write2_raw s (Some (c_block c)) (c_len c) (c_native c) w
  end.

Definition accepted (c : call) : bool := negb (native_failed (c_native c)).

(** What the engine holds for an accepted call. *)
Definition entry (c : call) : WriteReq * option uv_stream :=
  (mkWriteReq [TError; TWrite] [uv_buf_init (Some (c_block c)) (c_len c)]
     (if c_owned c then delete_base_and_bufs else delete_bufs) 1,
   c_send c).

(** The request of [c] is destroyed. *)
Definition release (c : call) (m : Memory) : Memory :=
  if c_owned c then delete_array (Some (c_block c)) m else m.

(** The buffer the request of [c] deletes with itself. *)
Definition owned_block (c : call) : list block :=
  if c_owned c then [c_block c] else [].

Definition write_event (status : Z) : Event :=
  if status =? 0 then WriteEvent else ErrorEvent status.

(** The engine reports the completions [ss], oldest request first. *)
Definition completions (ss : list Z) (w : World) : World :=
  foldl (fun w s => complete_write s w) w ss.

(** ** Traces: the application and the engine take turns *)

Inductive action :=
| Call (c : call)
| Done (status : Z).

Definition step (w : World) (a : action) : World :=
  match a with
  | Call c => issue c w
  | Done status => complete_write status w
  end.

Definition run (t : list action) (w : World) : World := foldl step w t.

Fixpoint calls_of (t : list action) : list call :=
  match t with
  | [] => []
  | Call c :: t' => c :: calls_of t'
  | Done _ :: t' => calls_of t'
  end.

Fixpoint dones (t : list action) : list Z :=
  match t with
  | [] => []
  | Call _ :: t' => dones t'
  | Done status :: t' => status :: dones t'
  end.

(** The events a trace hands to the subscribers. *)
Fixpoint notifications (t : list action) : list Event :=
  match t with
  | [] => []
  | Call c :: t' =>
      (if accepted c then [] else [ErrorEvent (c_native c)]) ++ notifications t'
  | Done status :: t' => write_event status :: notifications t'
  end.

(** The engine completes only what it has in flight: [n] requests now. *)
Fixpoint balanced (n : nat) (t : list action) : bool :=
  match t with
  | [] => true
  | Call c :: t' => balanced (if accepted c then S n else n) t'
  | Done _ :: t' =>
      match n with
      | O => false
      | S n' => balanced n' t'
      end
  end.

(** A buffer given away to an owning overload is used by no other call. *)
Definition conflict (c c' : call) : bool :=
  (c_owned c || c_owned c') && (c_block c =? c_block c')%positive.

Fixpoint unshared (cs : list call) : bool :=
  match cs with
  | [] => true
  | c :: cs' => forallb (fun c' => negb (conflict c c')) cs' && unshared cs'
  end.

(** The buffers of the calls are on the heap. *)
Definition all_live (cs : list call) (m : Memory) : bool :=
  forallb (fun c => is_live (c_block c) m) cs.

(** The bytes of [c] that reach the peer when its request completes with
    [status]. *)
Definition chunk (h : gmap block (list byte)) (c : call) (status : Z) : list byte :=
  if status =? 0 then take (Z.to_nat (c_len c)) (default [] (h !! c_block c)) else [].

(** The buffers a trace deletes, in the order of their deletion, when the
    engine holds the requests of [pend] at its start. *)
Fixpoint released (pend : list call) (t : list action) : list block :=
  match t with
  | [] => []
  | Call c :: t' =>
      if accepted c then released (pend ++ [c]) t'
      else owned_block c ++ released pend t'
  | Done _ :: t' =>
      match pend with
      | [] => released [] t'
      | c :: pend' => owned_block c ++ released pend' t'
      end
  end.

(** ** Read sessions *)

(** The event the read callback publishes for an outcome. *)
Definition read_event (UV_EOF : Z) (nread : Z) (buf : uv_buf_t) : Event :=
  if nread =? UV_EOF then EndEvent
  else if 0 <? nread then DataEvent (base buf) (to_size_t nread)
  else ErrorEvent nread.

(** One chunk as the engine delivers it: the size it asks the allocator
    for, the bytes it received and the outcome it reports. *)
Record delivery := mkDelivery {
  d_suggested : Z;
  d_input : list byte;
  d_nread : Z
}.

Definition read_session (UV_EOF : Z) (ds : list delivery) (w : World) : World :=
  foldl (fun w d => read_chunk UV_EOF (d_suggested d) (d_input d) (d_nread d) w) w ds.

(** ** The same calls without the transfer of ownership *)

Definition borrow (c : call) : call :=
  mkCall false (c_send c) (c_block c) (c_len c) (c_native c).

Definition borrow_all (t : list action) : list action :=
  map (fun a => match a with Call c => Call (borrow c) | Done s => Done s end) t.

(** ** Scenarios *)

Definition hello : list byte :=
  [Init.Byte.x68; Init.Byte.x65; Init.Byte.x6c; Init.Byte.x6c; Init.Byte.x6f].

Definition abc : list byte := [Init.Byte.x61; Init.Byte.x62; Init.Byte.x63].

(** A stream at rest, with two buffers of the application on the heap. *)
Definition world0 : World :=
  mkWorld (mkMemory (<[1%positive := hello]> (<[2%positive := abc]> ∅)) [] false)
          [] false false [] [] [].

(** libuv's value of the sentinel. *)
Definition uv_eof : Z := -4095.

(** [write(bufA, 5)] then [write(bufB, 3)], and both complete. *)
Definition two_writes : list action :=
  [Call (mkCall true None 1%positive 5 0);
   Call (mkCall false None 2%positive 3 0);
   Done 0; Done 0].

(** * Properties *)

(** ** Bookkeeping *)

Lemma to_size_t_positive (n : Z) : 0 < n -> ssize_t_range n -> to_size_t n = n.
Proof.
  intros Hpos [_ Hhi]. unfold to_size_t. apply Z.mod_small. lia.
Qed.

Lemma publish_published (e : Event) (w : World) :
  published (publish e w) = published w ++ [e].
Proof. reflexivity. Qed.

Lemma publish_mem (e : Event) (w : World) :
  mem (publish e w) = touch (payload e) (mem w).
Proof. reflexivity. Qed.

Lemma touch_live (b : block) (m : Memory) :
  is_live b m = true -> touch (Some b) m = m.
Proof.
  intros Hlive. destruct m as [h f u]. unfold touch; simpl in *.
  rewrite Hlive. simpl. by rewrite orb_false_r.
Qed.

Lemma delete_array_frees (b : block) (m : Memory) :
  frees (delete_array (Some b) m) = frees m ++ [b].
Proof. reflexivity. Qed.

Lemma delete_array_live (b : block) (m : Memory) :
  is_live b (delete_array (Some b) m) = false.
Proof.
  unfold is_live; simpl. rewrite lookup_delete_eq.
  apply bool_decide_eq_false. by intros [x Hx].
Qed.

Lemma delete_array_ub (b : block) (m : Memory) :
  is_live b m = true -> ub (delete_array (Some b) m) = ub m.
Proof. intros Hlive. simpl. rewrite Hlive. apply orb_false_r. Qed.

Lemma free_count_snoc (b : block) (m m' : Memory) :
  frees m' = frees m ++ [b] -> free_count b m' = S (free_count b m).
Proof.
  intros Heq. unfold free_count. rewrite Heq, filter_app, length_app.
  rewrite filter_cons_True by done. simpl. lia.
Qed.

Lemma free_count_snoc_ne (b c : block) (m m' : Memory) :
  c ≠ b -> frees m' = frees m ++ [c] -> free_count b m' = free_count b m.
Proof.
  intros Hne Heq. unfold free_count. rewrite Heq, filter_app, length_app.
  rewrite filter_cons_False by done. simpl. lia.
Qed.

Lemma free_count_same (b : block) (m m' : Memory) :
  frees m' = frees m -> free_count b m' = free_count b m.
Proof. intros Heq. unfold free_count. by rewrite Heq. Qed.

(** ** The read callback *)

Section ReadCallback.

Variable UV_EOF : Z.

(** The end-of-stream sentinel is one of the engine's negative codes. *)
Hypothesis UV_EOF_negative : UV_EOF < 0.

Lemma readCallback_positive (nread : Z) (buf : uv_buf_t) (w : World) :
  0 < nread ->
  readCallback UV_EOF nread buf w =
  set_mem (unique_ptr_dtor None)
    (set_mem (Event_dtor (DataEvent (base buf) (to_size_t nread)))
       (publish (DataEvent (base buf) (to_size_t nread)) w)).
Proof.
  intros Hpos. unfold readCallback.
  destruct (Z.eqb_spec nread UV_EOF) as [-> | _]; [lia |].
  destruct (Z.ltb_spec 0 nread); [reflexivity | lia].
Qed.

Lemma readCallback_eof (buf : uv_buf_t) (w : World) :
  readCallback UV_EOF UV_EOF buf w =
  set_mem (unique_ptr_dtor (base buf)) (publish EndEvent w).
Proof. unfold readCallback. by rewrite Z.eqb_refl. Qed.

Lemma readCallback_other (nread : Z) (buf : uv_buf_t) (w : World) :
  nread <= 0 -> nread ≠ UV_EOF ->
  readCallback UV_EOF nread buf w =
  set_mem (unique_ptr_dtor (base buf)) (publish (ErrorEvent nread) w).
Proof.
  intros Hle Hne. unfold readCallback.
  destruct (Z.eqb_spec nread UV_EOF); [done |].
  destruct (Z.ltb_spec 0 nread); [lia | reflexivity].
Qed.

Lemma readCallback_positive_ub (nread : Z) (buf : uv_buf_t) (b : block) (w : World) :
  0 < nread -> base buf = Some b -> is_live b (mem w) = true ->
  ub (mem (readCallback UV_EOF nread buf w)) = ub (mem w).
Proof.
  intros Hpos Hb Hlive. rewrite readCallback_positive by done. rewrite Hb.
  simpl. unfold is_live in *. simpl. rewrite Hlive. by rewrite !orb_false_r.
Qed.

(** C1. A chunk with a positive byte count [nread] publishes exactly one
    event, the Data event that owns the buffer of the chunk, and its length
    is [nread] whatever length the buffer descriptor carries; the buffer is
    released once, through that event. *)
Theorem readCallback_publishes_data (nread : Z) (buf : uv_buf_t) (w : World) :
  0 < nread -> ssize_t_range nread ->
  published (readCallback UV_EOF nread buf w) =
    published w ++ [DataEvent (base buf) nread]
  /\ forall b, base buf = Some b ->
       free_count b (mem (readCallback UV_EOF nread buf w)) = S (free_count b (mem w)).
Proof.
  intros Hpos Hrange. rewrite readCallback_positive by done.
  rewrite to_size_t_positive by done. split; [reflexivity |].
  intros b Hb. apply free_count_snoc. simpl. by rewrite Hb.
Qed.

(** C2, as the code has it: a chunk reported with a byte count of zero,
    which is neither the end of the stream nor a failure, publishes an Error
    event carrying the code 0. *)
Theorem readCallback_zero_publishes_error (buf : uv_buf_t) (w : World) :
  published (readCallback UV_EOF 0 buf w) = published w ++ [ErrorEvent 0].
Proof.
  rewrite readCallback_other by lia. reflexivity.
Qed.

(** Away from zero the callback does follow the sign: an Error event is
    published exactly for the negative outcomes other than the sentinel. *)
Lemma readCallback_error_iff (nread : Z) (buf : uv_buf_t) (w : World) :
  nread ≠ 0 ->
  (exists ec, published (readCallback UV_EOF nread buf w) = published w ++ [ErrorEvent ec])
  <-> nread < 0 /\ nread ≠ UV_EOF.
Proof.
  intros Hnz. split.
  - intros [ec Hec]. destruct (Z.eq_dec nread UV_EOF) as [-> | Hne].
    + rewrite readCallback_eof in Hec. simpl in Hec.
      apply app_inv_head in Hec. discriminate.
    + destruct (Z.lt_ge_cases 0 nread) as [Hpos | Hle]; [| lia].
      rewrite readCallback_positive in Hec by done. simpl in Hec.
      apply app_inv_head in Hec. discriminate.
  - intros [Hneg Hne]. exists nread. by rewrite readCallback_other by lia.
Qed.

(** C3. Whatever the outcome, the callback releases the chunk's buffer
    exactly once and, when the buffer was live, without touching it after
    the release.  For a positive count the buffer is the payload of the Data
    event handed to the subscribers; otherwise the event that is published
    carries no buffer. *)
Theorem readCallback_frees_once (nread : Z) (buf : uv_buf_t) (b : block) (w : World) :
  base buf = Some b ->
  let w' := readCallback UV_EOF nread buf w in
  frees (mem w') = frees (mem w) ++ [b]
  /\ heap (mem w') = delete b (heap (mem w))
  /\ (is_live b (mem w) = true -> ub (mem w') = ub (mem w))
  /\ (0 < nread -> published w' = published w ++ [DataEvent (Some b) (to_size_t nread)])
  /\ (nread <= 0 -> exists e, published w' = published w ++ [e] /\ payload e = None).
Proof.
  intros Hb w'. subst w'.
  destruct (Z.lt_ge_cases 0 nread) as [Hpos | Hle].
  - split; [| split; [| split; [| split]]].
    + rewrite readCallback_positive by done. by rewrite Hb.
    + rewrite readCallback_positive by done. by rewrite Hb.
    + intros Hlive. by apply (readCallback_positive_ub nread buf b).
    + intros _. rewrite readCallback_positive by done. by rewrite Hb.
    + lia.
  - assert (Hshape : exists e, payload e = None /\
              readCallback UV_EOF nread buf w =
              set_mem (unique_ptr_dtor (base buf)) (publish e w)).
    { destruct (Z.eq_dec nread UV_EOF) as [-> | Hne].
      - exists EndEvent. by rewrite readCallback_eof.
      - exists (ErrorEvent nread). by rewrite readCallback_other. }
    destruct Hshape as (e & He & ->). rewrite Hb.
    repeat split; try (simpl; by rewrite ?He); try lia.
    + intros Hlive. simpl. rewrite He. simpl. rewrite Hlive. apply orb_false_r.
    + intros _. exists e. by split.
Qed.

(** The same through the engine's delivery of a chunk: the buffer is the
    one the allocator just made, of [suggested] bytes, and the event's length
    is [nread]. *)
Lemma read_chunk_publishes_data (suggested nread : Z) (input : list byte) (w : World) :
  0 < nread -> ssize_t_range nread ->
  published (read_chunk UV_EOF suggested input nread w) =
    published w ++ [DataEvent (Some (fresh_block (mem w))) nread]
  /\ ub (mem (read_chunk UV_EOF suggested input nread w)) = ub (mem w)
  /\ is_live (fresh_block (mem w)) (mem w) = false.
Proof.
  intros Hpos Hrange. unfold read_chunk, allocCallback.
  set (b := fresh_block (mem w)).
  set (w1 := set_mem _ w).
  assert (Hlive : is_live b (mem w1) = true).
  { unfold is_live. apply bool_decide_eq_true. subst w1. simpl.
    rewrite lookup_alter_eq, lookup_insert_eq. by eexists. }
  split; [| split].
  - rewrite readCallback_positive by done. by rewrite to_size_t_positive.
  - by rewrite (readCallback_positive_ub nread _ b w1).
  - unfold is_live. apply bool_decide_eq_false. intros Hsome.
    apply elem_of_dom in Hsome.
    apply (is_fresh (dom (heap (mem w)) ∪ list_to_set (frees (mem w)) : gset block)).
    apply elem_of_union. by left.
Qed.

End ReadCallback.

(** ** Reads of the heap change neither its contents nor the free log *)

Lemma load_heap (p : ptr) (n : Z) (m : Memory) :
  heap (snd (load p n m)) = heap m /\ frees (snd (load p n m)) = frees m.
Proof.
  unfold load. destruct p as [b |]; [| done].
  destruct (heap m !! b); done.
Qed.

Lemma gather_heap (bs : list uv_buf_t) (m : Memory) :
  heap (snd (gather bs m)) = heap m /\ frees (snd (gather bs m)) = frees m.
Proof.
  revert m. induction bs as [| b bs IH]; intros m; [done |].
  simpl. destruct (load (base b) (len b) m) as [x m1] eqn:Hload.
  destruct (gather bs m1) as [xs m2] eqn:Hgather. simpl.
  pose proof (load_heap (base b) (len b) m) as [Hh Hf].
  pose proof (IH m1) as [Hh' Hf'].
  rewrite Hload in Hh, Hf. rewrite Hgather in Hh', Hf'. simpl in *.
  split; congruence.
Qed.

Lemma uv_try_write_result (r : Z) (bs : list uv_buf_t) (n : Z) (w : World) :
  fst (uv_try_write r bs n w) = r.
Proof.
  unfold uv_try_write. destruct (native_failed r); [done |].
  by destruct (gather _ _).
Qed.

Lemma uv_try_write_world (r : Z) (bs : list uv_buf_t) (n : Z) (w : World) :
  let w' := snd (uv_try_write r bs n w) in
  published w' = published w
  /\ heap (mem w') = heap (mem w)
  /\ frees (mem w') = frees (mem w)
  /\ write_queue w' = write_queue w.
Proof.
  unfold uv_try_write. destruct (native_failed r); [done |].
  pose proof (gather_heap (take (Z.to_nat n) bs) (mem w)) as [Hh Hf].
  destruct (gather _ _) as [bytes m]. simpl in *. done.
Qed.

(** ** tryWrite *)

(** C4. [tryWrite] returns the native count when it is not negative and
    publishes nothing; a negative native result publishes exactly one Error
    event with that code, and 0 is returned.  The count is never negative. *)
Theorem tryWrite_never_negative (data : unique_ptr) (len r : Z) (w : World) :
  fst (tryWrite data len r w) = Z.max 0 r
  /\ 0 <= fst (tryWrite data len r w)
  /\ published (snd (tryWrite data len r w)) =
       published w ++ (if r <? 0 then [ErrorEvent r] else []).
Proof.
  unfold tryWrite.
  pose proof (uv_try_write_result r [uv_buf_init (unique_ptr_get data) len] 1 w) as Hres.
  pose proof (uv_try_write_world r [uv_buf_init (unique_ptr_get data) len] 1 w) as (Hpub & _).
  destruct (uv_try_write _ _ _ _) as [bw w1]. simpl in Hres, Hpub. subst bw.
  destruct (Z.ltb_spec r 0) as [Hneg | Hnn]; simpl.
  - rewrite Hpub. split; [lia | split; [lia | reflexivity]].
  - rewrite Hpub, app_nil_r. split; [lia | split; [lia | reflexivity]].
Qed.

(** C10. [tryWrite] owns the buffer it is given and releases it when it
    returns, whatever the native call reported: the buffer is gone from the
    heap afterwards, also when only a part of it, or nothing, was written. *)
Theorem tryWrite_frees_buffer (b : block) (len r : Z) (w : World) :
  let w' := snd (tryWrite (Some b) len r w) in
  frees (mem w') = frees (mem w) ++ [b]
  /\ free_count b (mem w') = S (free_count b (mem w))
  /\ heap (mem w') = delete b (heap (mem w))
  /\ is_live b (mem w') = false.
Proof.
  unfold tryWrite.
  pose proof (uv_try_write_world r [uv_buf_init (unique_ptr_get (Some b)) len] 1 w)
    as (_ & Hheap & Hfrees & _).
  destruct (uv_try_write _ _ _ _) as [bw w1]. simpl in Hheap, Hfrees.
  assert (Hmem : forall w2, heap (mem w2) = heap (mem w) -> frees (mem w2) = frees (mem w) ->
            let w' := set_mem (unique_ptr_dtor (Some b)) w2 in
            frees (mem w') = frees (mem w) ++ [b]
            /\ free_count b (mem w') = S (free_count b (mem w))
            /\ heap (mem w') = delete b (heap (mem w))
            /\ is_live b (mem w') = false).
  { intros w2 Hh Hf. simpl. rewrite Hh, Hf. repeat split.
    - by apply free_count_snoc.
    - unfold is_live; simpl. rewrite lookup_delete_eq.
      apply bool_decide_eq_false. by intros [x Hx]. }
  destruct (bw <? 0); simpl; apply Hmem; done.
Qed.

(** ** The listen callback *)

(** C6. Each listen callback publishes exactly one event: Listen for a
    status of zero, Error with the status otherwise. *)
Theorem listenCallback_one_event (status : Z) (w : World) :
  published (listenCallback status w) =
  published w ++ [if status =? 0 then ListenEvent else ErrorEvent status].
Proof.
  unfold listenCallback. destruct (status =? 0); reflexivity.
Qed.

(** ** stop *)

Lemma stop_clears_reading (r : Z) (w : World) : reading (stop r w) = false.
Proof.
  unfold stop, Handle_invoke, uv_read_stop.
  destruct (reading w) eqn:Hr.
  - destruct (native_failed r); reflexivity.
  - exact Hr.
Qed.

(** C7. On a stream without an active read registration [stop] changes
    nothing: no event is published, whatever the engine would have answered
    on a reading stream; a [stop] that follows a [stop] is such a call. *)
Theorem stop_idle_noop (r : Z) (w : World) :
  reading w = false ->
  stop r w = w
  /\ published (stop r w) = published w
  /\ forall r1 r2 w0, stop r2 (stop r1 w0) = stop r1 w0.
Proof.
  assert (Hidle : forall r' w', reading w' = false -> stop r' w' = w').
  { intros r' w' Hr. unfold stop, Handle_invoke, uv_read_stop. by rewrite Hr. }
  intros Hr. rewrite (Hidle r w Hr). repeat split.
  intros r1 r2 w0. apply Hidle, stop_clears_reading.
Qed.

(** ** shutdown *)

Lemma shutdown_call (r : Z) (w : World) :
  shutdown r w =
  if r <? 0 then publish (ErrorEvent r) w
  else set_shutdown_queue (fun q => q ++ [shutdown_req]) w.
Proof.
  unfold shutdown, ShutdownReq_shutdown, Request_invoke, uv_shutdown, native_failed.
  destruct (r <? 0); reflexivity.
Qed.

Lemma complete_shutdown_head (status : Z) (rest : list ShutdownReq) (w : World) :
  shutdown_queue w = shutdown_req :: rest ->
  complete_shutdown status w =
  publish (shutdown_event status) (set_shutdown_queue (fun _ => rest) w).
Proof.
  intros Hq. unfold complete_shutdown, defaultCallback, shutdown_event. rewrite Hq.
  destruct (status =? 0); reflexivity.
Qed.

Lemma run_shutdowns_idle (ss : list Z) (w : World) :
  shutdown_queue w = [] -> run_shutdowns ss w = w.
Proof.
  intros Hq. induction ss as [| s ss IH]; [done |].
  unfold run_shutdowns in *. simpl.
  replace (complete_shutdown s w) with w; [exact IH |].
  unfold complete_shutdown. by rewrite Hq.
Qed.

Lemma iter_publish_shutdown_queue (n : nat) (e : Event)
  (f : list ShutdownReq -> list ShutdownReq) (w : World) :
  Nat.iter n (publish e) (set_shutdown_queue f w) =
  set_shutdown_queue f (Nat.iter n (publish e) w).
Proof. induction n as [| n IH]; simpl; [done |]. by rewrite IH. Qed.

Lemma replicate_snoc {A : Type} (n : nat) (x : A) :
  replicate n x ++ [x] = replicate (S n) x.
Proof. induction n as [| k IHk]; [done |]. simpl. by rewrite IHk. Qed.

Lemma iter_publish_published (n : nat) (e : Event) (w : World) :
  published (Nat.iter n (publish e) w) = published w ++ replicate n e.
Proof.
  induction n as [| n IH]; simpl; [by rewrite app_nil_r |].
  rewrite IH, <- app_assoc. f_equal. apply replicate_snoc.
Qed.

(** Publishing [n] times, spelled out. *)
Lemma iter_publish (n : nat) (e : Event) (w : World) :
  Nat.iter n (publish e) w =
  mkWorld (Nat.iter n (touch (payload e)) (mem w)) (published w ++ replicate n e)
          (reading w) (listening w) (write_queue w) (shutdown_queue w) (wire w).
Proof.
  induction n as [| n IH]; simpl.
  - destruct w; simpl. by rewrite app_nil_r.
  - rewrite IH. unfold publish, set_published, set_mem; simpl.
    f_equal. rewrite <- app_assoc. f_equal. apply replicate_snoc.
Qed.

Lemma Request_publish_shutdown_queue (e : Event) (ls : Listeners) (w : World) :
  shutdown_queue (snd (Request_publish e ls w)) = shutdown_queue w.
Proof.
  unfold Request_publish; simpl.
  induction (length _) as [| n IH]; simpl; done.
Qed.

(** Completions of older requests do not see a request queued behind them. *)
Lemma complete_shutdown_behind (s : Z) (req : ShutdownReq) (w : World) :
  shutdown_queue w ≠ [] ->
  complete_shutdown s (set_shutdown_queue (fun q => q ++ [req]) w) =
  set_shutdown_queue (fun q => q ++ [req]) (complete_shutdown s w).
Proof.
  intros Hne. destruct w as [m p rd ls wq sq wi]. simpl in Hne.
  destruct sq as [| old sq]; [done |].
  unfold complete_shutdown, defaultCallback, Request_publish; simpl.
  destruct (s =? 0); simpl; by rewrite !iter_publish_shutdown_queue.
Qed.

Lemma complete_shutdown_queue (s : Z) (w : World) :
  shutdown_queue (complete_shutdown s w) = tail (shutdown_queue w).
Proof.
  unfold complete_shutdown. destruct (shutdown_queue w) as [| old sq] eqn:Hq; [by rewrite Hq |].
  unfold defaultCallback. destruct (s =? 0); by rewrite Request_publish_shutdown_queue.
Qed.

Lemma run_shutdowns_behind (ss : list Z) (req : ShutdownReq) (w : World) :
  (length ss <= length (shutdown_queue w))%nat ->
  run_shutdowns ss (set_shutdown_queue (fun q => q ++ [req]) w) =
  set_shutdown_queue (fun q => q ++ [req]) (run_shutdowns ss w).
Proof.
  revert w. induction ss as [| s ss IH]; intros w Hlen; [done |].
  unfold run_shutdowns in *. simpl in *.
  rewrite complete_shutdown_behind by (intros Hq; rewrite Hq in Hlen; simpl in Hlen; lia).
  apply IH. rewrite complete_shutdown_queue.
  destruct (shutdown_queue w); simpl in *; lia.
Qed.

Lemma run_shutdowns_queue (ss : list Z) (w : World) :
  shutdown_queue (run_shutdowns ss w) = drop (length ss) (shutdown_queue w).
Proof.
  revert w. induction ss as [| s ss IH]; intros w; [done |].
  unfold run_shutdowns in *. simpl. rewrite IH, complete_shutdown_queue.
  destruct (shutdown_queue w); simpl; [by rewrite drop_nil | done].
Qed.

Lemma run_shutdowns_app (ss1 ss2 : list Z) (w : World) :
  run_shutdowns (ss1 ++ ss2) w = run_shutdowns ss2 (run_shutdowns ss1 w).
Proof. unfold run_shutdowns. apply foldl_app. Qed.

Lemma iter_publish_with_published (n : nat) (e : Event) (p : list Event) (w : World) :
  Nat.iter n (publish e) (with_published p w) =
  with_published (p ++ replicate n e) (Nat.iter n (publish e) w).
Proof.
  revert p. induction n as [| n IH]; intros p; simpl.
  - by rewrite app_nil_r.
  - rewrite IH. unfold with_published, publish, set_published, set_mem; simpl.
    f_equal. rewrite <- app_assoc. f_equal. apply replicate_snoc.
Qed.

Lemma complete_shutdown_with_published (s : Z) (w : World) :
  exists added, forall p,
    complete_shutdown s (with_published p w) =
    with_published (p ++ added) (complete_shutdown s w).
Proof.
  destruct w as [m ps rd ls wq sq wi]. destruct sq as [| old sq].
  - exists []. intros p. by rewrite app_nil_r.
  - unfold complete_shutdown, defaultCallback, Request_publish; simpl.
    destruct (s =? 0); simpl; eexists; intros p;
      rewrite !iter_publish_shutdown_queue, iter_publish_with_published;
      reflexivity.
Qed.

Lemma run_shutdowns_with_published (ss : list Z) (w : World) :
  exists added, forall p,
    run_shutdowns ss (with_published p w) =
    with_published (p ++ added) (run_shutdowns ss w).
Proof.
  revert w. induction ss as [| s ss IH]; intros w.
  - exists []. intros p. by rewrite app_nil_r.
  - destruct (complete_shutdown_with_published s w) as [a1 H1].
    destruct (IH (complete_shutdown s w)) as [a2 H2].
    exists (a1 ++ a2). intros p. unfold run_shutdowns in *. simpl.
    rewrite H1, H2. by rewrite app_assoc.
Qed.

Lemma with_published_same (w : World) : with_published (published w) w = w.
Proof. by destruct w. Qed.

(** C8. A call of [shutdown] hands the stream's subscribers at most one
    event.  When the native call is refused this is the Error event with its
    code, published at once, and the engine's later completions add what
    they add without the call.  Otherwise nothing is published while older
    requests complete, the completion of the request publishes one event,
    Shutdown or Error, and nothing follows it. *)
Theorem shutdown_at_most_one_event (r : Z) (older later : list Z) (w : World) :
  length older = length (shutdown_queue w) ->
  (r < 0 ->
     exists added,
       published (run_shutdowns (older ++ later) w) = published w ++ added
       /\ published (run_shutdowns (older ++ later) (shutdown r w)) =
            published w ++ [ErrorEvent r] ++ added)
  /\ (0 <= r ->
        published (run_shutdowns older (shutdown r w)) = published (run_shutdowns older w)
        /\ published (run_shutdowns (older ++ later) (shutdown r w)) =
             published (run_shutdowns older w) ++
             match later with
             | [] => []
             | status :: _ => [shutdown_event status]
             end).
Proof.
  intros Hlen. rewrite shutdown_call. split.
  - intros Hneg. destruct (Z.ltb_spec r 0); [| lia].
    destruct (run_shutdowns_with_published (older ++ later) w) as [added Hadd].
    exists added. split.
    + rewrite <- (with_published_same w) at 1. by rewrite Hadd.
    + replace (publish (ErrorEvent r) w)
        with (with_published (published w ++ [ErrorEvent r]) w) by (by destruct w as [[]]).
      rewrite Hadd. simpl. by rewrite <- app_assoc.
  - intros Hnn. destruct (Z.ltb_spec r 0); [lia |].
    assert (Hrun : run_shutdowns older (set_shutdown_queue (fun q => q ++ [shutdown_req]) w) =
                   set_shutdown_queue (fun q => q ++ [shutdown_req]) (run_shutdowns older w))
      by (apply run_shutdowns_behind; lia).
    split; [by rewrite Hrun |].
    rewrite run_shutdowns_app, Hrun.
    assert (Hq : shutdown_queue (run_shutdowns older w) = []).
    { rewrite run_shutdowns_queue, Hlen. apply drop_all. }
    destruct later as [| status later]; [by rewrite app_nil_r |].
    unfold run_shutdowns at 1. simpl.
    rewrite (complete_shutdown_head status []) by (simpl; by rewrite Hq).
    change (foldl (fun w0 s => complete_shutdown s w0) ?x later)
      with (run_shutdowns later x).
    rewrite run_shutdowns_idle; reflexivity.
Qed.

(** ** write *)

Lemma issue_refused (c : call) (w : World) :
  native_failed (c_native c) = true ->
  issue c w = set_mem (release c) (publish (ErrorEvent (c_native c)) w).
Proof.
  intros Hr. destruct w as [m p rd ls wq sq wi]. destruct c as [o sd b l r].
  simpl in Hr. unfold issue, release; simpl.
  destruct o, sd; simpl;
    unfold write, write_raw, write2, write2_raw, WriteReq_write, WriteReq_write2,
      Request_invoke, uv_write, uv_write2;
    simpl; rewrite Hr; reflexivity.
Qed.

Lemma issue_accepted (c : call) (w : World) :
  native_failed (c_native c) = false ->
  issue c w = set_write_queue (fun q => q ++ [entry c]) w.
Proof.
  intros Hr. destruct w as [m p rd ls wq sq wi]. destruct c as [o sd b l r].
  simpl in Hr. unfold issue, entry; simpl.
  destruct o, sd; simpl;
    unfold write, write_raw, write2, write2_raw, WriteReq_write, WriteReq_write2,
      Request_invoke, uv_write, uv_write2;
    simpl; rewrite Hr; reflexivity.
Qed.

Lemma complete_write_idle (status : Z) (w : World) :
  write_queue w = [] -> complete_write status w = w.
Proof. intros Hq. unfold complete_write. by rewrite Hq. Qed.

Lemma complete_write_entry (status : Z) (c : call) (rest : list (WriteReq * option uv_stream))
  (bytes : list byte) (w : World) :
  write_queue w = entry c :: rest ->
  heap (mem w) !! c_block c = Some bytes ->
  complete_write status w =
  set_mem (release c)
    (set_published (fun es => es ++ [write_event status])
       (set_wire (fun s => s ++ if status =? 0 then take (Z.to_nat (c_len c)) bytes else [])
          (set_write_queue (fun _ => rest) w))).
Proof.
  intros Hq Hb. destruct w as [[h f u] p rd ls wq sq wi]. destruct c as [o sd b l r].
  simpl in *. subst wq.
  unfold complete_write, entry, defaultCallback, transmit, write_event, release; simpl.
  rewrite Hb.
  destruct (status =? 0); destruct o; simpl;
    unfold set_mem, publish, set_published, set_mem, set_wire, set_write_queue; simpl;
    rewrite ?app_nil_r; reflexivity.
Qed.

Lemma chunks_agree (h1 h2 : gmap block (list byte)) (cs : list call) (ss : list Z) :
  (forall c, c ∈ cs -> h1 !! c_block c = h2 !! c_block c) ->
  zip_with (chunk h1) cs ss = zip_with (chunk h2) cs ss.
Proof.
  revert ss. induction cs as [| c cs IH]; intros ss Hagree; [done |].
  destruct ss as [| s ss]; [done |]. simpl. f_equal.
  - unfold chunk. rewrite (Hagree c) by apply list_elem_of_here. done.
  - apply IH. intros c' Hc'. apply Hagree. by apply list_elem_of_further.
Qed.

Lemma conflict_owned (c c' : call) :
  conflict c c' = false -> (c_owned c || c_owned c') = true -> c_block c ≠ c_block c'.
Proof.
  unfold conflict. intros Hc Ho. rewrite Ho in Hc. simpl in Hc.
  by apply Pos.eqb_neq.
Qed.

Lemma unshared_cons (c : call) (cs : list call) :
  unshared (c :: cs) = true ->
  unshared cs = true
  /\ forall c', c' ∈ cs -> (c_owned c || c_owned c') = true -> c_block c ≠ c_block c'.
Proof.
  simpl. intros [Hall Hrest]%andb_true_iff. split; [done |].
  intros c' Hin Ho. apply conflict_owned; [| done].
  rewrite forallb_forall in Hall. apply negb_true_iff, Hall.
  by apply list_elem_of_In.
Qed.

Lemma unshared_remove (l1 l2 : list call) (c : call) :
  unshared (l1 ++ c :: l2) = true ->
  unshared (l1 ++ l2) = true
  /\ forall c', c' ∈ l1 ++ l2 -> c_owned c = true -> c_block c' ≠ c_block c.
Proof.
  induction l1 as [| a l1 IH]; simpl.
  - intros H. destruct (unshared_cons c l2 H) as [Hrest Hne]. split; [done |].
    intros c' Hin Ho Heq. apply (Hne c' Hin); [by rewrite Ho | done].
  - intros [Hall Hrest]%andb_true_iff.
    destruct (IH Hrest) as [Hun Hne]. rewrite forallb_app in Hall.
    apply andb_true_iff in Hall as [Hall1 Hall2]. simpl in Hall2.
    apply andb_true_iff in Hall2 as [Hac Hall2]. split.
    + apply andb_true_iff. split; [| done].
      rewrite forallb_app. by rewrite Hall1, Hall2.
    + intros c' Hin Ho. apply elem_of_cons in Hin as [-> | Hin].
      * apply negb_true_iff in Hac. apply conflict_owned; [done |].
        rewrite Ho. apply orb_true_r.
      * by apply Hne.
Qed.

Lemma all_live_spec (cs : list call) (m : Memory) :
  all_live cs m = true <-> forall c, c ∈ cs -> is_Some (heap m !! c_block c).
Proof.
  unfold all_live. rewrite forallb_forall. split.
  - intros H c Hin. apply list_elem_of_In in Hin.
    specialize (H c Hin). unfold is_live in H. by apply bool_decide_eq_true in H.
  - intros H c Hin. apply list_elem_of_In in Hin.
    unfold is_live. apply bool_decide_eq_true. by apply H.
Qed.

Lemma release_heap_other (c : call) (b : block) (m : Memory) :
  (c_owned c = true -> b ≠ c_block c) ->
  heap (release c m) !! b = heap m !! b.
Proof.
  intros Hne. unfold release. destruct (c_owned c); [| done].
  simpl. apply lookup_delete_ne. intros Heq. by apply Hne.
Qed.

Lemma release_ub (c : call) (m : Memory) :
  is_Some (heap m !! c_block c) -> ub (release c m) = ub m.
Proof.
  intros Hlive. unfold release. destruct (c_owned c); [| done].
  apply delete_array_ub. unfold is_live. by apply bool_decide_eq_true.
Qed.

Lemma step_call_accepted (c : call) (w : World) :
  accepted c = true ->
  step w (Call c) = set_write_queue (fun q => q ++ [entry c]) w.
Proof.
  unfold accepted. intros Ha%negb_true_iff. by apply issue_accepted.
Qed.

Lemma step_call_refused (c : call) (w : World) :
  accepted c = false ->
  step w (Call c) = set_mem (release c) (publish (ErrorEvent (c_native c)) w).
Proof.
  unfold accepted. intros Ha%negb_false_iff. by apply issue_refused.
Qed.

Lemma run_cons (a : action) (t : list action) (w : World) :
  run (a :: t) w = run t (step w a).
Proof. reflexivity. Qed.

Lemma step_done (status : Z) (w : World) : step w (Done status) = complete_write status w.
Proof. reflexivity. Qed.

(** The run of a trace from a world whose queue holds the calls [pend]. *)
Lemma run_refines (t : list action) :
  forall (pend : list call) (w : World),
    write_queue w = map entry pend ->
    unshared (pend ++ calls_of t) = true ->
    (forall c, c ∈ pend ++ calls_of t -> is_Some (heap (mem w) !! c_block c)) ->
    balanced (length pend) t = true ->
    wire (run t w) =
      wire w ++ concat (zip_with (chunk (heap (mem w)))
                          (pend ++ List.filter accepted (calls_of t)) (dones t))
    /\ published (run t w) = published w ++ notifications t
    /\ ub (mem (run t w)) = ub (mem w).
Proof.
  induction t as [| a t IH]; intros pend w Hq Hun Hlive Hbal.
  { simpl. rewrite zip_with_nil_r. simpl. by rewrite !app_nil_r. }
  destruct a as [c | status]; rewrite run_cons.
  - (* a call *)
    simpl in Hbal. simpl calls_of in *. simpl notifications.
    destruct (accepted c) eqn:Hacc.
    + rewrite step_call_accepted by done.
      destruct (IH (pend ++ [c]) (set_write_queue (fun q => q ++ [entry c]) w)) as (Hw & Hp & Hu).
      * simpl. by rewrite Hq, map_app.
      * by rewrite <- app_assoc.
      * intros c' Hin. rewrite <- app_assoc in Hin. by apply Hlive.
      * rewrite length_app. simpl. by rewrite Nat.add_1_r.
      * rewrite Hw, Hp, Hu. simpl. rewrite Hacc. rewrite <- app_assoc. done.
    + rewrite step_call_refused by done.
      destruct (unshared_remove pend (calls_of t) c Hun) as [Hun' Hne].
      set (w1 := set_mem (release c) (publish (ErrorEvent (c_native c)) w)).
      assert (Hsame : forall c', c' ∈ pend ++ calls_of t ->
                heap (mem w1) !! c_block c' = heap (mem w) !! c_block c').
      { intros c' Hin. subst w1. simpl. apply release_heap_other.
        intros Ho. by apply Hne. }
      destruct (IH pend w1) as (Hw & Hp & Hu).
      * done.
      * done.
      * intros c' Hin. rewrite Hsame by done. apply Hlive.
        apply elem_of_app in Hin as [Hin | Hin]; apply elem_of_app; [by left |].
        right. by apply list_elem_of_further.
      * done.
      * rewrite Hw, Hp, Hu. simpl. rewrite Hacc. split; [| split].
        -- f_equal. f_equal. apply chunks_agree. intros c' Hin. apply Hsame.
           apply elem_of_app in Hin as [Hin | Hin]; apply elem_of_app; [by left |].
           right. apply list_elem_of_In in Hin. apply filter_In in Hin as [Hin _].
           by apply list_elem_of_In.
        -- by rewrite <- app_assoc.
        -- apply release_ub. apply Hlive. apply elem_of_app. right.
           apply list_elem_of_here.
  - (* a completion *)
    simpl in Hbal. simpl calls_of in *. simpl notifications. simpl dones.
    destruct pend as [| c pend]; [done |]. simpl in Hbal, Hq.
    destruct (Hlive c) as [bytes Hbytes]; [apply list_elem_of_here |].
    rewrite step_done, (complete_write_entry status c (map entry pend) bytes) by done.
    destruct (unshared_cons c (pend ++ calls_of t) Hun) as [Hun' Hne].
    set (w1 := set_mem (release c) _).
    assert (Hsame : forall c', c' ∈ pend ++ calls_of t ->
              heap (mem w1) !! c_block c' = heap (mem w) !! c_block c').
    { intros c' Hin. subst w1. simpl. apply release_heap_other.
      intros Ho Heq. apply (Hne c' Hin); [by rewrite Ho | done]. }
    destruct (IH pend w1) as (Hw & Hp & Hu).
    + done.
    + done.
    + intros c' Hin. rewrite Hsame by done. apply Hlive. by apply list_elem_of_further.
    + done.
    + rewrite Hw, Hp, Hu. split; [| split].
      * subst w1. simpl. rewrite <- !app_assoc. f_equal. f_equal.
        -- unfold chunk. by rewrite Hbytes.
        -- f_equal. apply chunks_agree. intros c' Hin. apply Hsame.
           apply elem_of_app in Hin as [Hin | Hin]; apply elem_of_app; [by left |].
           right. apply list_elem_of_In in Hin. apply filter_In in Hin as [Hin _].
           by apply list_elem_of_In.
      * subst w1. simpl. by rewrite <- app_assoc.
      * subst w1. simpl. apply release_ub. by rewrite Hbytes.
Qed.

(** *** Completions of older and newer requests *)

Lemma completions_app (ss1 ss2 : list Z) (w : World) :
  completions (ss1 ++ ss2) w = completions ss2 (completions ss1 w).
Proof. unfold completions. apply foldl_app. Qed.

Lemma completions_cons (s : Z) (ss : list Z) (w : World) :
  completions (s :: ss) w = completions ss (complete_write s w).
Proof. reflexivity. Qed.

Lemma completions_idle (ss : list Z) (w : World) :
  write_queue w = [] -> completions ss w = w.
Proof.
  intros Hq. induction ss as [| s ss IH]; [done |].
  unfold completions in *. simpl. by rewrite complete_write_idle.
Qed.

Lemma iter_publish_write_queue (n : nat) (e : Event)
  (f : list (WriteReq * option uv_stream) -> list (WriteReq * option uv_stream)) (w : World) :
  Nat.iter n (publish e) (set_write_queue f w) =
  set_write_queue f (Nat.iter n (publish e) w).
Proof. induction n as [| n IH]; simpl; [done |]. by rewrite IH. Qed.

Lemma iter_publish_write_queue_get (n : nat) (e : Event) (w : World) :
  write_queue (Nat.iter n (publish e) w) = write_queue w.
Proof. induction n as [| n IH]; simpl; done. Qed.

(** A request queued behind the oldest one is not touched by its completion. *)
Lemma complete_write_behind (s : Z) (e : WriteReq * option uv_stream) (w : World) :
  write_queue w ≠ [] ->
  complete_write s (set_write_queue (fun q => q ++ [e]) w) =
  set_write_queue (fun q => q ++ [e]) (complete_write s w).
Proof.
  intros Hne. destruct w as [m p rd ls wq sq wi]. simpl in Hne.
  destruct wq as [| [old send] wq]; [done |].
  unfold complete_write, defaultCallback, Request_publish, transmit, WriteReq_dtor; simpl.
  destruct (gather _ m) as [bytes m'].
  destruct (s =? 0); simpl; by rewrite !iter_publish.
Qed.

Lemma complete_write_queue (s : Z) (w : World) :
  write_queue (complete_write s w) = tail (write_queue w).
Proof.
  unfold complete_write. destruct (write_queue w) as [| [old send] wq] eqn:Hq; [by rewrite Hq |].
  unfold defaultCallback, Request_publish, transmit, WriteReq_dtor; simpl.
  destruct (gather _ _) as [bytes m'].
  destruct (s =? 0); simpl; by rewrite iter_publish_write_queue_get.
Qed.

Lemma completions_queue (ss : list Z) (w : World) :
  write_queue (completions ss w) = drop (length ss) (write_queue w).
Proof.
  revert w. induction ss as [| s ss IH]; intros w; [done |].
  unfold completions in *. simpl. rewrite IH, complete_write_queue.
  destruct (write_queue w); simpl; [by rewrite drop_nil | done].
Qed.

Lemma completions_behind (ss : list Z) (e : WriteReq * option uv_stream) (w : World) :
  (length ss <= length (write_queue w))%nat ->
  completions ss (set_write_queue (fun q => q ++ [e]) w) =
  set_write_queue (fun q => q ++ [e]) (completions ss w).
Proof.
  revert w. induction ss as [| s ss IH]; intros w Hlen; [done |].
  unfold completions in *. simpl in *.
  rewrite complete_write_behind by (intros Hq; rewrite Hq in Hlen; simpl in Hlen; lia).
  apply IH. rewrite complete_write_queue.
  destruct (write_queue w); simpl in *; lia.
Qed.

(** The completion of the request of [c], whatever the heap holds. *)
Lemma complete_write_head (s : Z) (c : call) (rest : list (WriteReq * option uv_stream))
  (w : World) :
  write_queue w = entry c :: rest ->
  let w' := complete_write s w in
  frees (mem w') = frees (mem w) ++ owned_block c
  /\ heap (mem w') = (if c_owned c then delete (c_block c) (heap (mem w)) else heap (mem w))
  /\ published w' = published w ++ [write_event s]
  /\ write_queue w' = rest.
Proof.
  intros Hq. destruct w as [[h f u] p rd ls wq sq wi]. destruct c as [o sd b l r].
  simpl in *. subst wq.
  unfold complete_write, entry, defaultCallback, transmit, write_event, owned_block; simpl.
  destruct (h !! b); destruct (s =? 0); destruct o; simpl; rewrite ?app_nil_r; done.
Qed.

(** C5. The request of a [write] call deletes the data buffer exactly when
    the overload took ownership of it, and then once: at the return of the
    call when the native call is refused, after the Error event; otherwise
    not while older requests complete, once when its own completion is
    reported, after the Write or Error event, and never again.  A borrowing
    overload leaves the free log as it is. *)
Theorem write_releases_buffer_once (c : call) (older later : list Z) (status : Z)
  (w : World) :
  length older = length (write_queue w) ->
  (accepted c = false ->
     published (issue c w) = published w ++ [ErrorEvent (c_native c)]
     /\ frees (mem (issue c w)) = frees (mem w) ++ owned_block c
     /\ write_queue (issue c w) = write_queue w)
  /\ (accepted c = true ->
        issue c w = set_write_queue (fun q => q ++ [entry c]) w
        /\ mem (completions older (issue c w)) = mem (completions older w)
        /\ published (completions older (issue c w)) = published (completions older w)
        /\ frees (mem (completions (older ++ status :: later) (issue c w))) =
             frees (mem (completions older w)) ++ owned_block c
        /\ published (completions (older ++ status :: later) (issue c w)) =
             published (completions older w) ++ [write_event status]).
Proof.
  intros Hlen. split.
  - intros Hacc. change (issue c w) with (step w (Call c)).
    rewrite step_call_refused by done.
    unfold release, owned_block. destruct (c_owned c); simpl; by rewrite ?app_nil_r.
  - intros Hacc. change (issue c w) with (step w (Call c)).
    rewrite step_call_accepted by done.
    assert (Hrun : completions older (set_write_queue (fun q => q ++ [entry c]) w) =
                   set_write_queue (fun q => q ++ [entry c]) (completions older w))
      by (apply completions_behind; lia).
    assert (Hq : write_queue (completions older w) = []).
    { rewrite completions_queue, Hlen. apply drop_all. }
    split; [done |]. split; [by rewrite Hrun |]. split; [by rewrite Hrun |].
    rewrite completions_app, Hrun, completions_cons.
    set (w1 := set_write_queue _ (completions older w)).
    destruct (complete_write_head status c [] w1) as (Hf & _ & Hp & Hq').
    { subst w1. simpl. by rewrite Hq. }
    rewrite completions_idle by done. by rewrite Hf, Hp.
Qed.

(** *** The free log over a trace *)

Lemma run_frees (t : list action) :
  forall (pend : list call) (w : World),
    write_queue w = map entry pend ->
    frees (mem (run t w)) = frees (mem w) ++ released pend t.
Proof.
  induction t as [| a t IH]; intros pend w Hq; [by rewrite app_nil_r |].
  destruct a as [c | status]; rewrite run_cons; simpl released.
  - destruct (accepted c) eqn:Hacc.
    + rewrite step_call_accepted by done.
      rewrite (IH (pend ++ [c])); [done |]. simpl. by rewrite Hq, map_app.
    + rewrite step_call_refused by done.
      rewrite (IH pend) by done. simpl. rewrite app_assoc. f_equal.
      unfold release, owned_block. destruct (c_owned c); simpl; by rewrite ?app_nil_r.
  - rewrite step_done. destruct pend as [| c pend].
    + rewrite complete_write_idle by done. by apply IH.
    + destruct (complete_write_head status c (map entry pend) w Hq) as (Hf & _ & _ & Hq').
      rewrite (IH pend) by done. rewrite Hf. by rewrite app_assoc.
Qed.

Lemma released_owned (t : list action) :
  forall (pend : list call) (b : block),
    b ∈ released pend t ->
    exists c, c ∈ pend ++ calls_of t /\ c_owned c = true /\ c_block c = b.
Proof.
  assert (Hown : forall c b, b ∈ owned_block c -> c_owned c = true /\ c_block c = b).
  { intros c b. unfold owned_block. destruct (c_owned c).
    - intros ->%list_elem_of_singleton. done.
    - intros Hin. by apply elem_of_nil in Hin. }
  induction t as [| a t IH]; intros pend b Hin; simpl in Hin.
  { by apply elem_of_nil in Hin. }
  destruct a as [c | status]; simpl calls_of.
  - destruct (accepted c).
    + destruct (IH _ _ Hin) as (c' & Hc' & Ho & Hb). exists c'.
      rewrite <- app_assoc in Hc'. done.
    + apply elem_of_app in Hin as [Hin | Hin].
      * destruct (Hown c b Hin) as [Ho Hb]. exists c. split; [| done].
        apply elem_of_app. right. apply list_elem_of_here.
      * destruct (IH _ _ Hin) as (c' & Hc' & Ho & Hb). exists c'. split; [| done].
        apply elem_of_app in Hc' as [Hc' | Hc']; apply elem_of_app; [by left |].
        right. by apply list_elem_of_further.
  - destruct pend as [| c pend].
    + by apply IH.
    + apply elem_of_app in Hin as [Hin | Hin].
      * destruct (Hown c b Hin) as [Ho Hb]. exists c. split; [| done].
        apply list_elem_of_here.
      * destruct (IH _ _ Hin) as (c' & Hc' & Ho & Hb). exists c'. split; [| done].
        by apply list_elem_of_further.
Qed.

Lemma released_NoDup (t : list action) :
  forall pend : list call,
    unshared (pend ++ calls_of t) = true -> NoDup (released pend t).
Proof.
  assert (Hone : forall c rest,
            (c_owned c = true -> forall b, b ∈ rest -> b ≠ c_block c) -> NoDup rest ->
            NoDup (owned_block c ++ rest)).
  { intros c rest Hne Hnd. unfold owned_block. destruct (c_owned c); [| done].
    simpl. apply NoDup_cons. split; [| done]. intros Hin. by apply (Hne eq_refl _ Hin). }
  induction t as [| a t IH]; intros pend Hun; simpl; [apply NoDup_nil_2 |].
  destruct a as [c | status]; simpl calls_of in Hun.
  - destruct (accepted c).
    + apply IH. by rewrite <- app_assoc.
    + destruct (unshared_remove pend (calls_of t) c Hun) as [Hun' Hne].
      apply Hone; [| by apply IH].
      intros Hoc b Hin. destruct (released_owned t pend b Hin) as (c' & Hc' & Ho & <-).
      by apply Hne.
  - destruct pend as [| c pend]; [by apply IH |].
    destruct (unshared_cons c (pend ++ calls_of t) Hun) as [Hun' Hne].
    apply Hone; [| by apply IH].
    intros Hoc b Hin Heq. destruct (released_owned t pend b Hin) as (c' & Hc' & Ho & <-).
    apply (Hne c' Hc'); [| done]. rewrite Ho. apply orb_true_r.
Qed.

(** X12. Over any interleaving of [write] calls and completions in which
    no buffer given to an owning overload is shared with another call, no
    buffer is deleted twice, and every deleted buffer is one that an owning
    overload was given. *)
Lemma writes_never_free_twice (t : list action) (w : World) :
  write_queue w = [] ->
  unshared (calls_of t) = true ->
  frees (mem (run t w)) = frees (mem w) ++ released [] t
  /\ NoDup (released [] t)
  /\ forall b, b ∈ released [] t ->
       exists c, c ∈ calls_of t /\ c_owned c = true /\ c_block c = b.
Proof.
  intros Hq Hun. split; [by apply run_frees |]. split.
  - by apply released_NoDup.
  - intros b Hin. by apply (released_owned t []).
Qed.

(** C9. Over any interleaving of [write] calls and completions, the peer
    has received the bytes of the accepted calls whose completion was
    reported, each call's bytes in one piece and the pieces in the order of
    the calls; the subscribers got the Error event of each refused call and
    one Write or Error event per completion, in the order of the trace; and
    no buffer was used after its release. *)
Theorem writes_reach_peer_in_order (t : list action) (w : World) :
  write_queue w = [] ->
  unshared (calls_of t) = true ->
  all_live (calls_of t) (mem w) = true ->
  balanced 0 t = true ->
  wire (run t w) =
    wire w ++ concat (zip_with (chunk (heap (mem w)))
                        (List.filter accepted (calls_of t)) (dones t))
  /\ published (run t w) = published w ++ notifications t
  /\ ub (mem (run t w)) = ub (mem w).
Proof.
  intros Hq Hun Hlive Hbal.
  apply (run_refines t [] w); try done.
  by apply all_live_spec.
Qed.

(** ** The properties at work *)

Lemma readCallback_publishes_data_witness :
  published (readCallback uv_eof 4 (uv_buf_init (Some 1%positive) 65536) world0)
  = [DataEvent (Some 1%positive) 4].
Proof.
  refine (proj1 (readCallback_publishes_data uv_eof _ 4
                   (uv_buf_init (Some 1%positive) 65536) world0 _ _)).
  - unfold uv_eof. lia.
  - lia.
  - unfold ssize_t_range. lia.
Defined.

Lemma readCallback_zero_publishes_error_witness :
  published (readCallback uv_eof 0 (uv_buf_init (Some 1%positive) 65536) world0)
  = [ErrorEvent 0].
Proof.
  refine (readCallback_zero_publishes_error uv_eof _
            (uv_buf_init (Some 1%positive) 65536) world0).
  unfold uv_eof. lia.
Defined.

Lemma readCallback_frees_once_witness :
  frees (mem (readCallback uv_eof uv_eof (uv_buf_init (Some 1%positive) 65536) world0))
  = [1%positive].
Proof.
  refine (proj1 (readCallback_frees_once uv_eof _ uv_eof
                   (uv_buf_init (Some 1%positive) 65536) 1%positive world0 _)).
  - unfold uv_eof. lia.
  - reflexivity.
Defined.

Lemma stop_idle_noop_witness : stop (-9) world0 = world0.
Proof.
  refine (proj1 (stop_idle_noop (-9) world0 _)). reflexivity.
Defined.

Lemma shutdown_at_most_one_event_witness :
  published (run_shutdowns ([] ++ [0; 0]) (shutdown 0 world0)) = [ShutdownEvent].
Proof.
  refine (proj2 (proj2 (shutdown_at_most_one_event 0 [] [0; 0] world0 _) _)).
  - reflexivity.
  - lia.
Defined.

Lemma write_releases_buffer_once_witness :
  frees (mem (completions ([] ++ 0 :: [0])
                (issue (mkCall true None 1%positive 5 0) world0)))
  = [1%positive].
Proof.
  refine (proj1 (proj2 (proj2 (proj2 (proj2
            (write_releases_buffer_once (mkCall true None 1%positive 5 0) [] [0] 0 world0 _) _))))).
  - reflexivity.
  - reflexivity.
Defined.

Lemma writes_reach_peer_in_order_witness :
  wire (run two_writes world0) = hello ++ abc.
Proof.
  refine (proj1 (writes_reach_peer_in_order two_writes world0 _ _ _ _));
    reflexivity.
Defined.

(** A read session: a chunk of four bytes, then the end of the stream.  The
    subscribers get one Data event of length 4 and one End event, no Error
    event, and both buffers are released. *)
Example read_then_eof :
  let w := read_chunk uv_eof 0 [] uv_eof
             (read_chunk uv_eof 65536 (take 4 hello) 4 (read 0 world0)) in
  published w = [DataEvent (Some 3%positive) 4; EndEvent]
  /\ frees (mem w) = [3%positive; 4%positive]
  /\ ub (mem w) = false.
Proof. vm_compute. repeat split. Qed.

(** A refused owning write: the Error event, and the buffer is gone. *)
Example refused_write :
  let w := write (Some 1%positive) 5 (-32) world0 in
  published w = [ErrorEvent (-32)]
  /\ frees (mem w) = [1%positive]
  /\ write_queue w = [].
Proof. vm_compute. repeat split. Qed.

(** A borrowing write leaves the buffer to the caller. *)
Example borrowed_write :
  let w := complete_write 0 (write_raw (Some 2%positive) 3 0 world0) in
  published w = [WriteEvent]
  /\ frees (mem w) = []
  /\ wire w = abc.
Proof. vm_compute. repeat split. Qed.

(** * Further properties *)

(** ** Every outcome of a read *)

Section ReadOutcomes.

Variable UV_EOF : Z.

Lemma readCallback_as_publish (nread : Z) (buf : uv_buf_t) (w : World) :
  readCallback UV_EOF nread buf w =
  set_mem (delete_array (base buf)) (publish (read_event UV_EOF nread buf) w).
Proof.
  unfold readCallback, read_event.
  destruct (nread =? UV_EOF); [reflexivity |].
  destruct (0 <? nread); reflexivity.
Qed.

Lemma read_event_payload (nread : Z) (buf : uv_buf_t) :
  payload (read_event UV_EOF nread buf) = None
  \/ payload (read_event UV_EOF nread buf) = base buf.
Proof.
  unfold read_event. destruct (nread =? UV_EOF); [by left |].
  destruct (0 <? nread); [by right | by left].
Qed.

(** X1. Whatever the engine reports, the read callback publishes exactly
    one event: End exactly for the sentinel, Data exactly for a positive
    count, Error exactly for the other outcomes, with the outcome as its
    code. *)
Theorem readCallback_one_event (nread : Z) (buf : uv_buf_t) (w : World) :
  UV_EOF < 0 ->
  exists e,
    published (readCallback UV_EOF nread buf w) = published w ++ [e]
    /\ (e = EndEvent <-> nread = UV_EOF)
    /\ (is_DataEvent e = true <-> 0 < nread)
    /\ (e = ErrorEvent nread <-> nread <= 0 /\ nread ≠ UV_EOF).
Proof.
  intros Hneg. exists (read_event UV_EOF nread buf).
  rewrite readCallback_as_publish. split; [reflexivity |].
  unfold read_event.
  destruct (Z.eqb_spec nread UV_EOF) as [Heq | Hne].
  - split; [done |]. split; [simpl; split; [done | lia] |].
    split; [done | intros [_ Hne]; done].
  - destruct (Z.ltb_spec 0 nread) as [Hpos | Hle]; simpl.
    + split; [done |]. split; [done |]. split; [done | lia].
    + split; [done |]. split; [split; [done | lia] |]. done.
Qed.

(** X2. A chunk that comes without a buffer ([buf->base] is null) makes the
    callback delete nothing: the heap, the free log and the use-after-free
    flag are as before, for every outcome. *)
Theorem readCallback_null_buffer (nread : Z) (buf : uv_buf_t) (w : World) :
  base buf = None ->
  mem (readCallback UV_EOF nread buf w) = mem w.
Proof.
  intros Hnull. rewrite readCallback_as_publish. simpl.
  destruct (read_event_payload nread buf) as [-> | ->]; rewrite Hnull; reflexivity.
Qed.

(** One chunk through the allocator: the buffer that was made for it is
    gone again, and nothing else of the heap has changed. *)
Lemma read_chunk_world (suggested nread : Z) (input : list byte) (w : World) :
  let w' := read_chunk UV_EOF suggested input nread w in
  heap (mem w') = heap (mem w)
  /\ frees (mem w') = frees (mem w) ++ [fresh_block (mem w)]
  /\ ub (mem w') = ub (mem w)
  /\ length (published w') = S (length (published w))
  /\ reading w' = reading w
  /\ write_queue w' = write_queue w
  /\ shutdown_queue w' = shutdown_queue w
  /\ wire w' = wire w.
Proof.
  unfold read_chunk, allocCallback. set (b := fresh_block (mem w)).
  assert (Hfresh : heap (mem w) !! b = None).
  { apply not_elem_of_dom. intros Hin.
    apply (is_fresh (dom (heap (mem w)) ∪ list_to_set (frees (mem w)) : gset block)).
    apply elem_of_union. by left. }
  rewrite readCallback_as_publish.
  set (e := read_event UV_EOF nread (uv_buf_init (Some b) suggested)).
  assert (Hlive : forall x, is_Some
            (alter (fun old => take (length old) (input ++ drop (length input) old)) b
               (<[b:=x]> (heap (mem w))) !! b)).
  { intros x. rewrite lookup_alter_eq, lookup_insert_eq. by eexists. }
  split; [| split; [| split; [| split]]].
  - simpl. apply map_eq. intros i. destruct (decide (i = b)) as [-> | Hne].
    + by rewrite lookup_delete_eq, Hfresh.
    + rewrite lookup_delete_ne by done. destruct (payload e); simpl;
        by rewrite lookup_alter_ne, lookup_insert_ne.
  - simpl. destruct (payload e); reflexivity.
  - simpl. assert (Hb : forall m, heap m = alter (fun old => take (length old)
                (input ++ drop (length input) old)) b
                (<[b:=replicate (Z.to_nat suggested) Init.Byte.x00]> (heap (mem w))) ->
              is_live b m = true).
    { intros m Hm. unfold is_live. apply bool_decide_eq_true. rewrite Hm. apply Hlive. }
    destruct (read_event_payload nread (uv_buf_init (Some b) suggested)) as [Hp | Hp];
      fold e in Hp; rewrite Hp; simpl.
    + rewrite Hb by done. apply orb_false_r.
    + rewrite !Hb by done. by rewrite !orb_false_r.
  - simpl. rewrite length_app. simpl. lia.
  - done.
Qed.

(** X3. A read session, chunk after chunk: every buffer the allocator made
    is deleted by the time the callback returns, so the heap ends as it
    began, no dead buffer was touched, each chunk gave the subscribers one
    event, and no buffer was deleted twice. *)
Theorem read_session_keeps_heap (ds : list delivery) (w : World) :
  let w' := read_session UV_EOF ds w in
  heap (mem w') = heap (mem w)
  /\ ub (mem w') = ub (mem w)
  /\ length (published w') = (length (published w) + length ds)%nat
  /\ length (frees (mem w')) = (length (frees (mem w)) + length ds)%nat
  /\ (NoDup (frees (mem w)) -> NoDup (frees (mem w')))
  /\ write_queue w' = write_queue w
  /\ wire w' = wire w.
Proof.
  revert w. induction ds as [| d ds IH]; intros w.
  { simpl. repeat split; try done; lia. }
  unfold read_session in *. simpl foldl.
  destruct (read_chunk_world (d_suggested d) (d_nread d) (d_input d) w)
    as (Hh & Hf & Hu & Hp & _ & Hq & _ & Hw).
  destruct (IH (read_chunk UV_EOF (d_suggested d) (d_input d) (d_nread d) w))
    as (Hh' & Hu' & Hp' & Hf' & Hnd & Hq' & Hw').
  simpl. rewrite Hh', Hu', Hp', Hf', Hq', Hw', Hh, Hu, Hp, Hq, Hw, Hf.
  rewrite length_app. simpl.
  repeat split; try done; try lia.
  intros Hnodup. apply Hnd. rewrite Hf. apply NoDup_app. split; [done |]. split.
  - intros x Hin ->%list_elem_of_singleton.
    apply (is_fresh (dom (heap (mem w)) ∪ list_to_set (frees (mem w)) : gset block)).
    apply elem_of_union. right. by apply elem_of_list_to_set.
  - apply NoDup_singleton.
Qed.

End ReadOutcomes.

(** ** tryWrite on a live buffer *)

(** X4. [tryWrite] on a buffer that is on the heap reads it before it
    deletes it: no dead buffer is touched, the peer gets the first [r] of
    the buffer's [len] bytes when the native call reports [r >= 0] and
    nothing otherwise, and no request is left in flight. *)
Theorem tryWrite_live_buffer (b : block) (bytes : list byte) (len r : Z) (w : World) :
  heap (mem w) !! b = Some bytes ->
  let w' := snd (tryWrite (Some b) len r w) in
  wire w' = wire w ++
            (if r <? 0 then [] else take (Z.to_nat r) (take (Z.to_nat len) bytes))
  /\ ub (mem w') = ub (mem w)
  /\ write_queue w' = write_queue w
  /\ shutdown_queue w' = shutdown_queue w
  /\ reading w' = reading w.
Proof.
  intros Hb. destruct w as [[h f u] p rd ls wq sq wi]. simpl in Hb.
  unfold tryWrite, uv_try_write, native_failed. simpl.
  destruct (Z.ltb_spec r 0) as [Hneg | Hnn]; simpl.
  - destruct (Z.ltb_spec r 0); [| lia]. simpl.
    unfold is_live; simpl. rewrite Hb. rewrite bool_decide_eq_true_2 by (by eexists).
    rewrite app_nil_r, orb_false_r. done.
  - rewrite Hb. simpl. destruct (Z.ltb_spec r 0); [lia |]. simpl.
    unfold is_live; simpl. rewrite Hb. rewrite bool_decide_eq_true_2 by (by eexists).
    rewrite app_nil_r, orb_false_r. done.
Qed.

(** ** Null data *)

(** X5. A null data pointer is never deleted and nothing of it is sent:
    an owning [write], a borrowing [write] and [tryWrite] of a null buffer,
    followed by the completion of the request, leave the memory and the
    peer's bytes as they were. *)
Theorem null_data_never_freed (len r status : Z) (w : World) :
  write_queue w = [] ->
  (mem (complete_write status (write None len r w)) = mem w
   /\ wire (complete_write status (write None len r w)) = wire w)
  /\ (mem (complete_write status (write_raw None len r w)) = mem w
      /\ wire (complete_write status (write_raw None len r w)) = wire w)
  /\ (mem (snd (tryWrite None len r w)) = mem w
      /\ wire (snd (tryWrite None len r w)) = wire w).
Proof.
  intros Hq. destruct w as [[h f u] p rd ls wq sq wi]. simpl in Hq. subst wq.
  destruct (r <? 0) eqn:Hr; destruct (status =? 0) eqn:Hs;
    (split; [split | split; split]);
    unfold write, write_raw, tryWrite, WriteReq_write, Request_invoke, uv_write,
      uv_try_write, native_failed, complete_write, transmit, defaultCallback,
      Request_publish, WriteReq_once, once, WriteReq_dtor;
    simpl; rewrite ?Hr; simpl; rewrite ?Hs; simpl;
    rewrite ?take_nil, ?app_nil_r; reflexivity.
Qed.

(** ** listen, accept, read and stop *)



(** ** shutdown and the rest of the stream *)

Lemma complete_shutdown_frame (s : Z) (w : World) :
  mem (complete_shutdown s w) = mem w
  /\ reading (complete_shutdown s w) = reading w
  /\ write_queue (complete_shutdown s w) = write_queue w
  /\ wire (complete_shutdown s w) = wire w.
Proof.
  unfold complete_shutdown. destruct (shutdown_queue w) as [| req rest]; [done |].
  unfold defaultCallback, Request_publish.
  destruct (s =? 0); simpl; rewrite iter_publish; simpl;
    (split; [| done]);
    induction (length _) as [| n IH]; simpl; try done; by rewrite IH.
Qed.

(** X8. [shutdown] and the completions of shutdown requests leave the read
    side, the heap, the writes in flight and the peer's bytes alone. *)
Theorem shutdown_leaves_rest (r : Z) (ss : list Z) (w : World) :
  let w' := run_shutdowns ss (shutdown r w) in
  mem w' = mem w
  /\ reading w' = reading w
  /\ write_queue w' = write_queue w
  /\ wire w' = wire w.
Proof.
  assert (Hrun : forall ss w,
            mem (run_shutdowns ss w) = mem w
            /\ reading (run_shutdowns ss w) = reading w
            /\ write_queue (run_shutdowns ss w) = write_queue w
            /\ wire (run_shutdowns ss w) = wire w).
  { clear. intros ss. induction ss as [| s ss IH]; intros w; [done |].
    unfold run_shutdowns in *. simpl.
    destruct (IH (complete_shutdown s w)) as (-> & -> & -> & ->).
    apply complete_shutdown_frame. }
  simpl. destruct (Hrun ss (shutdown r w)) as (-> & -> & -> & ->).
  rewrite shutdown_call. destruct (r <? 0); done.
Qed.

(** ** More on traces of writes *)

Lemma run_heap_other (t : list action) :
  forall (pend : list call) (w : World) (b : block),
    write_queue w = map entry pend ->
    b ∉ released pend t ->
    heap (mem (run t w)) !! b = heap (mem w) !! b.
Proof.
  assert (Hown : forall c b, b ∉ owned_block c -> c_owned c = true -> b ≠ c_block c).
  { intros c b Hnin Ho Heq. apply Hnin. unfold owned_block. rewrite Ho, Heq.
    apply list_elem_of_here. }
  induction t as [| a t IH]; intros pend w b Hq Hnin; [done |].
  destruct a as [c | status]; rewrite run_cons; simpl released in Hnin.
  - destruct (accepted c) eqn:Hacc.
    + rewrite step_call_accepted by done.
      rewrite (IH (pend ++ [c])); [done | | done]. simpl. by rewrite Hq, map_app.
    + rewrite step_call_refused by done.
      apply not_elem_of_app in Hnin as [Hc Hrest].
      rewrite (IH pend) by done. simpl. apply release_heap_other. by apply Hown.
  - rewrite step_done. destruct pend as [| c pend].
    + rewrite complete_write_idle by done. by apply (IH []).
    + apply not_elem_of_app in Hnin as [Hc Hrest].
      destruct (complete_write_head status c (map entry pend) w Hq) as (_ & Hh & _ & Hq').
      rewrite (IH pend) by done. rewrite Hh.
      destruct (c_owned c) eqn:Ho; [| done].
      apply lookup_delete_ne. intros Heq. by apply (Hown c b Hc Ho).
Qed.

Lemma unshared_owned_other (cs : list call) (c c' : call) :
  unshared cs = true -> c ∈ cs -> c' ∈ cs ->
  c_owned c' = true -> c_owned c = false -> c_block c ≠ c_block c'.
Proof.
  intros Hun Hc Hc' Ho' Ho.
  destruct (list_elem_of_split _ _ Hc') as (l1 & l2 & ->).
  destruct (unshared_remove l1 l2 c' Hun) as [_ Hne].
  apply Hne; [| done].
  apply elem_of_app in Hc as [Hc | Hc]; apply elem_of_app; [by left |].
  apply elem_of_cons in Hc as [-> | Hc]; [congruence | by right].
Qed.

(** X9. The buffer of a borrowing [write] stays the caller's: over any
    interleaving of calls and completions in which no buffer given to an
    owning overload is shared with another call, it is on the heap with the
    same bytes as before. *)
Theorem borrowed_buffers_untouched (t : list action) (c : call) (w : World) :
  write_queue w = [] ->
  unshared (calls_of t) = true ->
  c ∈ calls_of t ->
  c_owned c = false ->
  heap (mem (run t w)) !! c_block c = heap (mem w) !! c_block c.
Proof.
  intros Hq Hun Hc Ho. apply (run_heap_other t []); [done |].
  intros Hin. destruct (released_owned t [] _ Hin) as (c' & Hc' & Ho' & Hb).
  by apply (unshared_owned_other (calls_of t) c c').
Qed.

Lemma run_accounting (t : list action) :
  forall (pend : list call) (w : World),
    write_queue w = map entry pend ->
    balanced (length pend) t = true ->
    published (run t w) = published w ++ notifications t
    /\ (length (notifications t) + length (write_queue (run t w)) =
        length pend + length (calls_of t))%nat.
Proof.
  induction t as [| a t IH]; intros pend w Hq Hbal.
  { simpl. rewrite app_nil_r, Hq, length_map. split; [done | lia]. }
  destruct a as [c | status]; rewrite run_cons; simpl in Hbal;
    simpl notifications; simpl calls_of.
  - destruct (accepted c) eqn:Hacc.
    + rewrite step_call_accepted by done.
      destruct (IH (pend ++ [c]) (set_write_queue (fun q => q ++ [entry c]) w))
        as [Hp Hn].
      * simpl. by rewrite Hq, map_app.
      * rewrite length_app. simpl. by rewrite Nat.add_1_r.
      * rewrite length_app in Hn. simpl in *. split; [by rewrite Hp | lia].
    + rewrite step_call_refused by done.
      destruct (IH pend (set_mem (release c) (publish (ErrorEvent (c_native c)) w)))
        as [Hp Hn]; [done | done |].
      split; [rewrite Hp; simpl; by rewrite <- app_assoc | simpl in *; lia].
  - rewrite step_done. destruct pend as [| c pend]; [done |].
    destruct (complete_write_head status c (map entry pend) w Hq) as (_ & _ & Hpub & Hq').
    destruct (IH pend (complete_write status w)) as [Hp Hn]; [done | done |].
    split; [rewrite Hp, Hpub; by rewrite <- app_assoc | simpl in *; lia].
Qed.

(** X10. Every [write] call is accounted for once: over any interleaving
    of calls and completions the subscribers got the Error event of each
    refused call and the Write or Error event of each completion, in the
    order of the trace, and the calls that have no event yet are the
    requests in flight.  Nothing is assumed about the buffers. *)
Theorem write_calls_accounted (t : list action) (w : World) :
  write_queue w = [] ->
  balanced 0 t = true ->
  published (run t w) = published w ++ notifications t
  /\ (length (notifications t) + length (write_queue (run t w)) =
      length (calls_of t))%nat.
Proof.
  intros Hq Hbal. by apply (run_accounting t [] w).
Qed.

Lemma calls_of_borrow_all (t : list action) :
  calls_of (borrow_all t) = map borrow (calls_of t)
  /\ dones (borrow_all t) = dones t
  /\ notifications (borrow_all t) = notifications t
  /\ forall n, balanced n (borrow_all t) = balanced n t.
Proof.
  induction t as [| a t (IHc & IHd & IHn & IHb)]; [done |].
  destruct a as [c | s]; simpl.
  - rewrite IHc, IHd, IHn. split; [done |]. split; [done |]. split; [done |].
    intros n. apply IHb.
  - rewrite IHc, IHd, IHn. split; [done |]. split; [done |]. split; [done |].
    intros [| n]; [done | apply IHb].
Qed.

Lemma unshared_borrowed (cs : list call) : unshared (map borrow cs) = true.
Proof.
  induction cs as [| c cs IH]; [done |]. simpl. rewrite IH, andb_true_r.
  apply forallb_forall. intros c' Hin. apply in_map_iff in Hin as (c0 & <- & _).
  reflexivity.
Qed.

Lemma released_borrowed (t : list action) :
  forall pend, released (map borrow pend) (borrow_all t) = [].
Proof.
  induction t as [| a t IH]; intros pend; [done |].
  destruct a as [c | s]; simpl.
  - change (accepted (borrow c)) with (accepted c). destruct (accepted c).
    + change [borrow c] with (map borrow [c]). rewrite <- map_app. apply IH.
    + apply IH.
  - destruct pend as [| c pend]; simpl; [apply (IH []) | apply IH].
Qed.

(** X11. Taking ownership changes only who deletes the buffer: with every
    call replaced by its borrowing overload, the peer receives the same
    bytes and the subscribers the same events, and nothing is deleted. *)
Theorem ownership_does_not_change_delivery (t : list action) (w : World) :
  write_queue w = [] ->
  unshared (calls_of t) = true ->
  all_live (calls_of t) (mem w) = true ->
  balanced 0 t = true ->
  wire (run (borrow_all t) w) = wire (run t w)
  /\ published (run (borrow_all t) w) = published (run t w)
  /\ frees (mem (run (borrow_all t) w)) = frees (mem w).
Proof.
  intros Hq Hun Hlive Hbal.
  destruct (calls_of_borrow_all t) as (Hc & Hd & Hn & Hb).
  destruct (run_refines t [] w) as (Hw & Hp & _); try done.
  { by apply all_live_spec. }
  destruct (run_refines (borrow_all t) [] w) as (Hw' & Hp' & _); try done.
  { simpl. rewrite Hc. apply unshared_borrowed. }
  { simpl. rewrite Hc. intros c' Hin. apply list_elem_of_In, in_map_iff in Hin.
    destruct Hin as (c0 & <- & Hin). apply (proj1 (all_live_spec _ _) Hlive c0).
    by apply list_elem_of_In. }
  { by rewrite Hb. }
  split; [| split].
  - rewrite Hw, Hw'. simpl. rewrite Hc, Hd. f_equal. f_equal.
    clear. generalize (dones t). induction (calls_of t) as [| c cs IH]; intros ss; [done |].
    simpl. change (accepted (borrow c)) with (accepted c).
    destruct (accepted c); [| apply IH].
    destruct ss as [| s ss]; [done |]. simpl. by rewrite IH.
  - by rewrite Hp, Hp', Hn.
  - rewrite (run_frees (borrow_all t) [] w) by done.
    pose proof (released_borrowed t []) as Hrel. simpl in Hrel.
    rewrite Hrel. apply app_nil_r.
Qed.

Lemma release_heap_dead (c : call) (b : block) (m : Memory) :
  heap m !! b = None -> heap (release c m) !! b = None.
Proof.
  intros Hb. unfold release. destruct (c_owned c); [| done].
  simpl. apply lookup_delete_None. by right.
Qed.

Lemma release_heap_own (c : call) (m : Memory) :
  c_owned c = true -> heap (release c m) !! c_block c = None.
Proof. intros Ho. unfold release. rewrite Ho. simpl. apply lookup_delete_eq. Qed.

Lemma complete_write_heap_dead (s : Z) (c : call) (rest : list (WriteReq * option uv_stream))
  (b : block) (w : World) :
  write_queue w = entry c :: rest ->
  heap (mem w) !! b = None \/ b ∈ owned_block c ->
  heap (mem (complete_write s w)) !! b = None.
Proof.
  intros Hq Hb. destruct (complete_write_head s c rest w Hq) as (_ & Hh & _ & _).
  rewrite Hh. unfold owned_block in Hb. destruct (c_owned c).
  - apply lookup_delete_None. destruct Hb as [Hb | ->%list_elem_of_singleton]; [by right | by left].
  - destruct Hb as [Hb | Hb]; [done | by apply elem_of_nil in Hb].
Qed.

(** A buffer that is not on the heap does not come back. *)
Lemma run_heap_dead (t : list action) :
  forall (pend : list call) (w : World) (b : block),
    write_queue w = map entry pend ->
    heap (mem w) !! b = None ->
    heap (mem (run t w)) !! b = None.
Proof.
  induction t as [| a t IH]; intros pend w b Hq Hb; [done |].
  destruct a as [c | status]; rewrite run_cons.
  - destruct (accepted c) eqn:Hacc.
    + rewrite step_call_accepted by done.
      apply (IH (pend ++ [c])); [| done]. simpl. by rewrite Hq, map_app.
    + rewrite step_call_refused by done.
      apply (IH pend); [done |]. simpl. by apply release_heap_dead.
  - rewrite step_done. destruct pend as [| c pend].
    + rewrite complete_write_idle by done. by apply (IH []).
    + destruct (complete_write_head status c (map entry pend) w Hq) as (_ & _ & _ & Hq').
      apply (IH pend); [done |].
      apply (complete_write_heap_dead status c (map entry pend)); [done | by left].
Qed.

Lemma run_heap_released (t : list action) :
  forall (pend : list call) (w : World) (b : block),
    write_queue w = map entry pend ->
    b ∈ released pend t ->
    heap (mem (run t w)) !! b = None.
Proof.
  induction t as [| a t IH]; intros pend w b Hq Hin; simpl in Hin.
  { by apply elem_of_nil in Hin. }
  destruct a as [c | status]; rewrite run_cons.
  - destruct (accepted c) eqn:Hacc.
    + rewrite step_call_accepted by done.
      apply (IH (pend ++ [c])); [| done]. simpl. by rewrite Hq, map_app.
    + rewrite step_call_refused by done.
      apply elem_of_app in Hin as [Hin | Hin]; [| by apply (IH pend)].
      apply (run_heap_dead t pend); [done |]. simpl.
      unfold owned_block in Hin. destruct (c_owned c) eqn:Ho.
      * apply list_elem_of_singleton in Hin as ->. by apply release_heap_own.
      * by apply elem_of_nil in Hin.
  - rewrite step_done. destruct pend as [| c pend].
    + rewrite complete_write_idle by done. by apply (IH []).
    + destruct (complete_write_head status c (map entry pend) w Hq) as (_ & _ & _ & Hq').
      apply elem_of_app in Hin as [Hin | Hin]; [| by apply (IH pend)].
      apply (run_heap_dead t pend); [done |].
      apply (complete_write_heap_dead status c (map entry pend)); [done | by right].
Qed.

(** An owning call has either deleted its buffer or is still in flight. *)
Lemma owned_finished (t : list action) :
  forall (pend : list call) (w : World) (c : call),
    write_queue w = map entry pend ->
    c ∈ pend ++ calls_of t ->
    c_owned c = true ->
    c_block c ∈ released pend t \/ entry c ∈ write_queue (run t w).
Proof.
  assert (Hown : forall c, c_owned c = true -> c_block c ∈ owned_block c).
  { intros c Ho. unfold owned_block. rewrite Ho. apply list_elem_of_here. }
  induction t as [| a t IH]; intros pend w c Hq Hc Ho.
  { right. simpl in *. rewrite app_nil_r in Hc. rewrite Hq.
    apply list_elem_of_In, in_map. by apply list_elem_of_In. }
  destruct a as [c0 | status]; rewrite run_cons; simpl in Hc; simpl released.
  - destruct (accepted c0) eqn:Hacc.
    + rewrite step_call_accepted by done.
      apply (IH (pend ++ [c0])); [| | done].
      * simpl. by rewrite Hq, map_app.
      * by rewrite <- app_assoc.
    + rewrite step_call_refused by done.
      apply elem_of_app in Hc as [Hc | Hc].
      * destruct (IH pend (set_mem (release c0) (publish (ErrorEvent (c_native c0)) w)) c)
          as [Hrel | Hfl]; [done | apply elem_of_app; by left | done | |].
        -- left. apply elem_of_app. by right.
        -- by right.
      * apply elem_of_cons in Hc as [-> | Hc].
        -- left. apply elem_of_app. left. by apply Hown.
        -- destruct (IH pend (set_mem (release c0) (publish (ErrorEvent (c_native c0)) w)) c)
             as [Hrel | Hfl]; [done | apply elem_of_app; by right | done | |].
           ++ left. apply elem_of_app. by right.
           ++ by right.
  - rewrite step_done. destruct pend as [| c0 pend].
    + rewrite complete_write_idle by done. by apply (IH []).
    + destruct (complete_write_head status c0 (map entry pend) w Hq) as (_ & _ & _ & Hq').
      simpl in Hc. apply elem_of_cons in Hc as [-> | Hc].
      * left. apply elem_of_app. left. by apply Hown.
      * destruct (IH pend (complete_write status w) c) as [Hrel | Hfl]; try done.
        -- left. apply elem_of_app. by right.
        -- by right.
Qed.

(** X13. Owning writes do not leak: once no request is in flight, the
    buffer of every owning [write] call of the trace, refused or completed,
    is in the free log and gone from the heap. *)
Theorem owned_buffers_released (t : list action) (c : call) (w : World) :
  write_queue w = [] ->
  write_queue (run t w) = [] ->
  c ∈ calls_of t ->
  c_owned c = true ->
  c_block c ∈ frees (mem (run t w))
  /\ heap (mem (run t w)) !! c_block c = None.
Proof.
  intros Hq Hend Hc Ho.
  destruct (owned_finished t [] w c Hq Hc Ho) as [Hrel | Hfl].
  - split.
    + rewrite (run_frees t [] w) by done. apply elem_of_app. by right.
    + by apply (run_heap_released t []).
  - rewrite Hend in Hfl. by apply elem_of_nil in Hfl.
Qed.

(** ** The further properties at work *)

Lemma readCallback_one_event_witness :
  exists e,
    published (readCallback uv_eof uv_eof (uv_buf_init (Some 1%positive) 65536) world0)
      = published world0 ++ [e]
    /\ (e = EndEvent <-> uv_eof = uv_eof)
    /\ (is_DataEvent e = true <-> 0 < uv_eof)
    /\ (e = ErrorEvent uv_eof <-> uv_eof <= 0 /\ uv_eof ≠ uv_eof).
Proof.
  refine (readCallback_one_event uv_eof uv_eof
            (uv_buf_init (Some 1%positive) 65536) world0 _).
  unfold uv_eof. lia.
Defined.

Lemma readCallback_null_buffer_witness :
  mem (readCallback uv_eof (-105) (uv_buf_init None 0) world0) = mem world0.
Proof.
  refine (readCallback_null_buffer uv_eof (-105) (uv_buf_init None 0) world0 _).
  reflexivity.
Defined.

Lemma tryWrite_live_buffer_witness :
  wire (snd (tryWrite (Some 1%positive) 5 3 world0)) = take 3 hello.
Proof.
  refine (proj1 (tryWrite_live_buffer 1%positive hello 5 3 world0 _)).
  reflexivity.
Defined.

Lemma null_data_never_freed_witness :
  mem (complete_write 0 (write None 5 0 world0)) = mem world0.
Proof.
  refine (proj1 (proj1 (null_data_never_freed 5 0 0 world0 _))).
  reflexivity.
Defined.


Lemma borrowed_buffers_untouched_witness :
  heap (mem (run two_writes world0)) !! 2%positive = Some abc.
Proof.
  refine (borrowed_buffers_untouched two_writes (mkCall false None 2%positive 3 0)
            world0 _ _ _ _); try reflexivity.
  apply list_elem_of_further, list_elem_of_here.
Defined.

Lemma write_calls_accounted_witness :
  published (run two_writes world0) = [WriteEvent; WriteEvent].
Proof.
  refine (proj1 (write_calls_accounted two_writes world0 _ _)); reflexivity.
Defined.

Lemma ownership_does_not_change_delivery_witness :
  wire (run (borrow_all two_writes) world0) = wire (run two_writes world0).
Proof.
  refine (proj1 (ownership_does_not_change_delivery two_writes world0 _ _ _ _));
    reflexivity.
Defined.

Lemma writes_never_free_twice_witness :
  frees (mem (run two_writes world0)) = [1%positive].
Proof.
  refine (proj1 (writes_never_free_twice two_writes world0 _ _)); reflexivity.
Defined.

Lemma owned_buffers_released_witness :
  heap (mem (run two_writes world0)) !! 1%positive = None.
Proof.
  refine (proj2 (owned_buffers_released two_writes (mkCall true None 1%positive 5 0)
                   world0 _ _ _ _)); try reflexivity.
  apply list_elem_of_here.
Defined.
